(** * The ingestion-and-retrieval pipeline of the MCP question-answering bot

    A shallow embedding of [backend/utils/document_processor.py],
    [backend/utils/vector_store.py] and [backend/utils/rag_pipeline.py],
    with the properties of the chunker, the text normaliser, the embedder,
    the vector-index client and the question-answering pipeline.

    Python [str] values are modelled as lists of characters over the code
    points 0..255, dictionaries as finite maps with string keys, mutable
    dictionaries shared through a list as a store of objects addressed by
    references, and the remote collaborators (embedding service, vector
    index, text generation, JSON codec) as oracles whose outcome is either a
    value or a raised exception. *)

From Stdlib Require Import ZArith Lia List Ascii String Bool PrimFloat.
From stdpp Require Import base option list gmap strings pretty.

Local Open Scope Z_scope.

(* ===================================================================== *)
(** ** Python strings *)
(* ===================================================================== *)

Abbreviation str := (list ascii).

(** A string literal as a [str]. *)
Definition lit (s : string) : str := list_ascii_of_string s.

(** [len(s)] *)
Definition len (s : str) : Z := Z.of_nat (length s).

Definition code (c : ascii) : Z := Z.of_N (N_of_ascii c).

(** [str.isspace] on one character, which is also the class [\s] of [re]
    for [str] patterns: TAB..CR, FS..US, SPACE, NEL and NBSP. *)
Definition is_space (c : ascii) : bool :=
  let n := code c in
  ((9 <=? n) && (n <=? 13)) || ((28 <=? n) && (n <=? 32))
  || (n =? 133) || (n =? 160).

(** The class [\w] of [re] for [str] patterns: alphanumeric characters and
    the underscore. *)
Definition is_word (c : ascii) : bool :=
  let n := code c in
  ((48 <=? n) && (n <=? 57)) || ((65 <=? n) && (n <=? 90))
  || ((97 <=? n) && (n <=? 122)) || (n =? 95)
  || (n =? 170) || (n =? 178) || (n =? 179) || (n =? 181)
  || (n =? 185) || (n =? 186) || ((188 <=? n) && (n <=? 190))
  || ((192 <=? n) && (n <=? 214)) || ((216 <=? n) && (n <=? 246))
  || ((248 <=? n) && (n <=? 255)).

(** Normalisation of a slice bound against a length [n]: a negative bound
    counts from the end, and the result is clamped to [0..n]. *)
Definition norm_index (n i : Z) : Z :=
  if i <? 0 then Z.max 0 (i + n) else Z.min i n.

(** [s[start:stop]] *)
Definition py_slice (s : str) (start stop : Z) : str :=
  let a := norm_index (len s) start in
  let b := norm_index (len s) stop in
  take (Z.to_nat (b - a)) (drop (Z.to_nat a) s).

(** The index of the last occurrence of [c] in [s], the head of [s] having
    index [i]; [-1] when there is none. *)
Fixpoint last_index (c : ascii) (s : str) (i : Z) : Z :=
  match s with
  | [] => -1
  | x :: r =>
      let k := last_index c r (i + 1) in
      if 0 <=? k then k else if Ascii.eqb x c then i else -1
  end.

(** [s.rfind(c, start, stop)] for a one-character needle. *)
Definition rfind (s : str) (c : ascii) (start stop : Z) : Z :=
  last_index c (py_slice s start stop) (norm_index (len s) start).

Fixpoint lstrip (s : str) : str :=
  match s with
  | [] => []
  | c :: r => if is_space c then lstrip r else s
  end.

Definition rstrip (s : str) : str := rev (lstrip (rev s)).

(** [s.strip()] *)
Definition strip (s : str) : str := rstrip (lstrip s).

(** Truth value of a string: [if s:] *)
Definition truthy (s : str) : bool :=
  match s with [] => false | _ => true end.

(** [len(s.split())]: the number of maximal runs of non-whitespace
    characters; [in_word] tells whether the previous character belonged to
    such a run. *)
Fixpoint count_words (in_word : bool) (s : str) : nat :=
  match s with
  | [] => O
  | c :: r =>
      if is_space c then count_words false r
      else if in_word then count_words true r
      else S (count_words true r)
  end.

Definition word_count (s : str) : Z := Z.of_nat (count_words false s).

(* ===================================================================== *)
(** ** Settings ([config/settings.py]) *)
(* ===================================================================== *)

Module settings.
Definition CHUNK_SIZE : Z := 1000.
Definition CHUNK_OVERLAP : Z := 200.
Definition TOP_K_RESULTS : Z := 5.
End settings.

(* ===================================================================== *)
(** ** The chunker ([DocumentProcessor.chunk_text]) *)
(* ===================================================================== *)

(** The end of the window that starts at [start]: [start + chunk_size],
    moved back to just after the last full stop of the window, or else to
    the last space of the window, when that lies past the window's
    midpoint. Nothing moves when the window reaches the end of the text. *)
Definition window_end (text : str) (chunk_size start : Z) : Z :=
  let end_ := start + chunk_size in
  if end_ <? len text then
    let sentence_end := rfind text "."%char start end_ in
    if start + chunk_size / 2 <? sentence_end then sentence_end + 1
    else
      let word_end := rfind text " "%char start end_ in
      if start + chunk_size / 2 <? word_end then word_end
      else end_
  else end_.

(** The [while start < len(text)] loop. The loop of the source need not
    terminate, so the model counts iterations: [None] means that [fuel]
    iterations did not reach the end of the loop. *)
Fixpoint chunk_loop (fuel : nat) (text : str) (chunk_size overlap : Z)
    (start : Z) (chunks : list str) : option (list str) :=
  match fuel with
  | O => None
  | S fuel' =>
      if start <? len text then
        let end_ := window_end text chunk_size start in
        let chunk := strip (py_slice text start end_) in
        let chunks' := if truthy chunk then chunks ++ [chunk] else chunks in
        let start' := end_ - overlap in
        if len text <=? start' then Some chunks'
        else chunk_loop fuel' text chunk_size overlap start' chunks'
      else Some chunks
  end.

(** [chunk_text(text, chunk_size=None, overlap=None)] *)
Definition chunk_text (fuel : nat) (text : str)
    (chunk_size overlap : option Z) : option (list str) :=
  let chunk_size := default settings.CHUNK_SIZE chunk_size in
  let overlap := default settings.CHUNK_OVERLAP overlap in
  if len text <=? chunk_size then Some [text]
  else chunk_loop fuel text chunk_size overlap 0 [].

(** The number of iterations that the loop is given where it is known to
    advance: one per character, and one more. *)
Definition enough_fuel (text : str) : nat := S (length text).

(* ===================================================================== *)
(** ** Text normalisation ([DocumentProcessor.clean_text]) *)
(* ===================================================================== *)

(** [re.sub(r'\s+', ' ', text)]: every maximal run of whitespace becomes
    one space; [in_run] tells whether the previous character was
    whitespace. *)
Fixpoint sub_whitespace (in_run : bool) (s : str) : str :=
  match s with
  | [] => []
  | c :: r =>
      if is_space c then
        if in_run then sub_whitespace true r
        else " "%char :: sub_whitespace true r
      else c :: sub_whitespace false r
  end.

(** The characters [. , ! ? ; : - ( )] of the allow-list. *)
Definition is_basic_punct (c : ascii) : bool :=
  existsb (Ascii.eqb c) (lit ".,!?;:-()").

(** The complement of the class [[^\w\s\.\,\!\?\;\:\-\(\)]]. *)
Definition allowed (c : ascii) : bool :=
  is_word c || is_space c || is_basic_punct c.

(** [re.sub(r'[^\w\s\.\,\!\?\;\:\-\(\)]', ' ', text)] *)
Definition sub_special (s : str) : str :=
  map (fun c => if allowed c then c else " "%char) s.

(** The class [[.!?]]. *)
Definition is_terminal (c : ascii) : bool :=
  existsb (Ascii.eqb c) (lit ".!?").

(** [re.sub(r'([.!?]){2,}', r'\1', text)]: a maximal run of two or more
    terminal punctuation characters is replaced by the last character of
    the run (the last capture of the group), so a terminal character
    disappears exactly when another one follows it. *)
Fixpoint sub_punct (s : str) : str :=
  match s with
  | [] => []
  | c :: r =>
      match r with
      | d :: _ =>
          if is_terminal c && is_terminal d then sub_punct r
          else c :: sub_punct r
      | [] => [c]
      end
  end.

Definition clean_text (text : str) : str :=
  let text := sub_whitespace false text in
  let text := sub_special text in
  let text := sub_punct text in
  strip text.


(* ===================================================================== *)
(** ** Values, dictionaries and exceptions *)
(* ===================================================================== *)

Definition vec := list PrimFloat.float.

(** The values that the fields of a chunk hold. *)
Inductive value :=
  | VStr (s : str)
  | VInt (n : Z)
  | VVec (v : vec).

(** A chunk dictionary; a crawled document is a dictionary of strings. *)
Abbreviation dict := (gmap string value).
Abbreviation document := (gmap string str).

Inductive exn :=
  | KeyError (key : string)
  | ValueError (msg : string)
  | TypeError (msg : string)
  | AttributeError (msg : string)
  | IndexError
  | RemoteError (msg : string).

(** The outcome of a call: a value, or a raised exception. *)
Inductive outcome (A : Type) :=
  | Returns (a : A)
  | Raises (e : exn).
Arguments Returns {A} a.
Arguments Raises {A} e.

Global Instance outcome_ret : MRet outcome := fun A a => Returns a.

Global Instance outcome_bind : MBind outcome := fun A B k m =>
  match m with
  | Returns a => k a
  | Raises e => Raises e
  end.

(** The decimal rendering of an integer in an f-string. *)
Definition repr_int (n : Z) : str := lit (pretty n).

(* ===================================================================== *)
(** ** Chunk metadata ([DocumentProcessor.process_documents]) *)
(* ===================================================================== *)

(** [self.chunk_text(text)], with the configured size and overlap. For
    these the loop ends within [enough_fuel text] iterations
    ([chunk_text_default_terminates] below), so the second branch is never
    taken. *)
Definition chunk_text_default (text : str) : list str :=
  match chunk_text (enough_fuel text) text None None with
  | Some chunks => chunks
  | None => []
  end.

(** The dictionary literal [chunk_data]; its first entry reads
    [doc['url']], which raises [KeyError] when the document has no url. *)
Definition chunk_data (doc : document) (i : nat) (chunk : str) (total : nat)
    : outcome dict :=
  match doc !! "url"%string with
  | None => Raises (KeyError "url")
  | Some url =>
      Returns (list_to_map
        [ ("id"%string, VStr (url ++ lit "#chunk_" ++ repr_int (Z.of_nat i)));
          ("text"%string, VStr chunk);
          ("url"%string, VStr url);
          ("title"%string, VStr (default (lit "Untitled") (doc !! "title"%string)));
          ("chunk_index"%string, VInt (Z.of_nat i));
          ("total_chunks"%string, VInt (Z.of_nat total));
          ("timestamp"%string, VStr (default [] (doc !! "timestamp"%string)));
          ("word_count"%string, VInt (word_count chunk)) ])
  end.

(** [for i, chunk in enumerate(chunks)], from index [i] on. *)
Fixpoint chunk_objects (doc : document) (total : nat) (i : nat)
    (chunks : list str) : outcome (list dict) :=
  match chunks with
  | [] => Returns []
  | chunk :: rest =>
      d ← chunk_data doc i chunk total;
      ds ← chunk_objects doc total (S i) rest;
      mret (d :: ds)
  end.

(** The chunks of one document: the body of the outer loop. *)
Definition document_chunks (doc : document) : outcome (list dict) :=
  let text := default [] (doc !! "text"%string) in
  if truthy text then
    let text := clean_text text in
    let chunks := chunk_text_default text in
    chunk_objects doc (length chunks) 0 chunks
  else Returns [].

(** [process_documents]: the chunks of the documents, appended in order. *)
Fixpoint process_documents (documents : list document) : outcome (list dict) :=
  match documents with
  | [] => Returns []
  | doc :: rest =>
      ds ← document_chunks doc;
      processed_chunks ← process_documents rest;
      mret (ds ++ processed_chunks)
  end.

(* ===================================================================== *)
(** ** The embedder ([DocumentProcessor.create_embeddings]) *)
(* ===================================================================== *)

(** The chunk dictionaries are objects that the function updates in place:
    a store maps references to dictionaries, and a chunk list is a list of
    references, in which one object may occur more than once. *)
Abbreviation store := (gmap nat dict).

(** The embedding service: the outcome of the call for batch number [k] on
    its texts, [None] when anything within the [try] block raises. *)
Definition embed_service := nat -> list value -> option (list vec).

Definition batch_size : nat := 100.

(** [[0.0] * 1536] *)
Definition zero_vector : vec := replicate 1536 0%float.

Definition field (sigma : store) (l : nat) (key : string) : option value :=
  sigma !! l ≫= (fun d : dict => d !! key).

(** [texts = [chunk['text'] for chunk in chunks]] *)
Fixpoint chunk_texts (sigma : store) (chunks : list nat) : outcome (list value) :=
  match chunks with
  | [] => Returns []
  | l :: rest =>
      match field sigma l "text" with
      | None => Raises (KeyError "text")
      | Some t => ts ← chunk_texts sigma rest; mret (t :: ts)
      end
  end.

(** [range(0, n, batch_size)] *)
Definition batch_starts (n : nat) : list nat :=
  map (fun k => (k * batch_size)%nat) (seq 0 ((n + batch_size - 1) / batch_size)).

(** [texts[i:i + batch_size]] *)
Definition batch_at (texts : list value) (i : nat) : list value :=
  take batch_size (drop i texts).

(** One iteration of the batch loop. *)
Definition embed_batch (svc : embed_service) (texts : list value)
    (embeddings : list vec) (i : nat) : list vec :=
  let batch_texts := batch_at texts i in
  match svc (i / batch_size)%nat batch_texts with
  | Some batch_embeddings => embeddings ++ batch_embeddings
  | None => embeddings ++ map (fun _ => zero_vector) batch_texts
  end.

Definition batch_embeddings (svc : embed_service) (texts : list value) : list vec :=
  foldl (embed_batch svc texts) [] (batch_starts (length texts)).

(** [chunk['embedding'] = embedding] *)
Definition set_embedding (sigma : store) (p : nat * vec) : store :=
  alter (fun d : dict => <["embedding"%string := VVec p.2]> d) p.1 sigma.

(** [create_embeddings]: returns the list that it was given, the objects
    of which have been updated in the store. Reading the texts raises
    before anything is written. *)
Definition create_embeddings (svc : embed_service) (sigma : store)
    (chunks : list nat) : outcome (list nat) * store :=
  match chunk_texts sigma chunks with
  | Raises e => (Raises e, sigma)
  | Returns texts =>
      let embeddings := batch_embeddings svc texts in
      (Returns chunks, foldl set_embedding sigma (zip chunks embeddings))
  end.

(* ===================================================================== *)
(** ** The processed-data file ([save_processed_data], [load_documents]) *)
(* ===================================================================== *)

(** The files, by path. *)
Abbreviation filesystem := (gmap string str).

(** The JSON codec of the standard library: [json_dump] gives the text
    that [json.dump] writes and the exception that interrupts it, if any;
    [json_load] gives the value that [json.load] parses, [None] for a
    [JSONDecodeError]. *)
Record json_codec (A : Type) := {
  json_dump : A -> str * option exn;
  json_load : str -> option A
}.
Arguments json_dump {A} _ _.
Arguments json_load {A} _ _.


(** [load_documents]: a missing file and a file that is not JSON both give
    the empty list. *)
Definition load_documents {A} (J : json_codec (list A)) (fs : filesystem)
    (file_path : string) : list A :=
  match fs !! file_path with
  | None => []
  | Some content =>
      match json_load J content with
      | Some documents => documents
      | None => []
      end
  end.


(* ===================================================================== *)
(** ** The remote collaborators *)
(* ===================================================================== *)

(** A handle on a named index, as [pc.Index(name)] returns it. *)
Inductive handle := Handle (name : string).

Record index_stats := {
  total_vector_count : Z;
  dimension : Z
}.

(** A match of an index query, with its metadata. *)
Record search_match := {
  m_id : str;
  m_score : PrimFloat.float;
  m_text : str;
  m_url : str;
  m_title : str;
  m_chunk_index : Z;
  m_total_chunks : Z;
  m_word_count : Z
}.

(** The collaborators that the vector store and the pipeline call. Every
    call either returns or raises; a response that lacks a field which the
    caller reads is a call that raises. *)
Record world := {
  (** [pc.list_indexes().names()] *)
  list_index_names : outcome (list string);
  (** [pc.Index(name)] *)
  open_index : string -> outcome handle;
  (** [index.describe_index_stats()] *)
  describe_index_stats : handle -> outcome index_stats;
  (** [embeddings.create(model, input=query)]: the vectors of
      [response.data] *)
  query_embedding : str -> outcome (list vec);
  (** [index.query(vector, top_k, include_metadata=True)]: the matches *)
  index_query : handle -> vec -> Z -> outcome (list search_match);
  (** [chat.completions.create(...)] on the system and the user prompt:
      the message contents of [response.choices] *)
  chat_completion : str -> str -> outcome (list str);
  (** the rendering [{:.3f}] of a score *)
  format_score : PrimFloat.float -> str
}.

(* ===================================================================== *)
(** ** The vector-index client ([PineconeVectorStore]) *)
(* ===================================================================== *)

Record vector_store := {
  index_name : string;
  index : option handle
}.

Definition set_index (vs : vector_store) (h : handle) : vector_store :=
  {| index_name := index_name vs; index := Some h |}.

(** [connect_to_index]: whatever is raised within the [try] block is
    printed and raised again. *)
Definition connect_to_index (w : world) (vs : vector_store)
    : outcome unit * vector_store :=
  let attempt :=
    names ← list_index_names w;
    if bool_decide (index_name vs ∈ names) then open_index w (index_name vs)
    else Raises (ValueError ("Index '" +:+ index_name vs +:+ "' does not exist")) in
  match attempt with
  | Returns h => (Returns tt, set_index vs h)
  | Raises e => (Raises e, vs)
  end.

(** [if not self.index: self.connect_to_index()] *)
Definition ensure_index (w : world) (vs : vector_store)
    : outcome unit * vector_store :=
  match index vs with
  | Some _ => (Returns tt, vs)
  | None => connect_to_index w vs
  end.

(** The method call [self.index.m(...)], which raises when there is no
    handle. *)
Definition with_index {A} (vs : vector_store) (m : handle -> outcome A) : outcome A :=
  match index vs with
  | Some h => m h
  | None => Raises (AttributeError "NoneType")
  end.

Record search_result := {
  sr_id : str;
  sr_score : PrimFloat.float;
  sr_text : str;
  sr_url : str;
  sr_title : str;
  sr_chunk_index : Z;
  sr_total_chunks : Z;
  sr_word_count : Z
}.

Definition result_of_match (m : search_match) : search_result :=
  {| sr_id := m_id m; sr_score := m_score m; sr_text := m_text m;
     sr_url := m_url m; sr_title := m_title m;
     sr_chunk_index := m_chunk_index m;
     sr_total_chunks := m_total_chunks m;
     sr_word_count := m_word_count m |}.

(** The [try] block of [search]. *)
Definition search_attempt (w : world) (vs : vector_store) (query : str)
    (top_k : Z) : outcome (list search_result) :=
  data ← query_embedding w query;
  query_embedding ← match data with
                    | e :: _ => Returns e
                    | [] => Raises IndexError
                    end;
  matches ← with_index vs (fun h => index_query w h query_embedding top_k);
  mret (map result_of_match matches).

(** [search]: the connection is made before the [try] block; a failure
    within the block gives the empty list. *)
Definition search (w : world) (vs : vector_store) (query : str)
    (top_k : option Z) : outcome (list search_result) * vector_store :=
  match ensure_index w vs with
  | (Raises e, vs') => (Raises e, vs')
  | (Returns _, vs') =>
      let top_k := default settings.TOP_K_RESULTS top_k in
      match search_attempt w vs' query top_k with
      | Returns results => (Returns results, vs')
      | Raises _ => (Returns [], vs')
      end
  end.

(** [get_index_stats]: the connection is made before the [try] block; a
    failure within the block gives [None]. *)
Definition get_index_stats (w : world) (vs : vector_store)
    : outcome (option index_stats) * vector_store :=
  match ensure_index w vs with
  | (Raises e, vs') => (Raises e, vs')
  | (Returns _, vs') =>
      match with_index vs' (describe_index_stats w) with
      | Returns stats => (Returns (Some stats), vs')
      | Raises _ => (Returns None, vs')
      end
  end.

(* ===================================================================== *)
(** ** The question-answering pipeline ([RAGPipeline]) *)
(* ===================================================================== *)

Definition newline : ascii := ascii_of_nat 10.

(** [sep.join(parts)] *)
Fixpoint join (sep : str) (parts : list str) : str :=
  match parts with
  | [] => []
  | [p] => p
  | p :: rest => p ++ sep ++ join sep rest
  end.

Definition retrieve_context (w : world) (vs : vector_store) (query : str)
    (top_k : option Z) : outcome (list search_result) * vector_store :=
  search w vs query (Some (default settings.TOP_K_RESULTS top_k)).

Definition context_part (w : world) (i : nat) (doc : search_result) : str :=
  [newline] ++ lit "Context " ++ repr_int (Z.of_nat i)
  ++ lit " (Score: " ++ format_score w (sr_score doc) ++ lit "):" ++ [newline]
  ++ lit "Title: " ++ sr_title doc ++ [newline]
  ++ lit "URL: " ++ sr_url doc ++ [newline]
  ++ lit "Content: " ++ sr_text doc ++ [newline].

Definition format_context (w : world) (retrieved_docs : list search_result) : str :=
  match retrieved_docs with
  | [] => lit "No relevant context found."
  | _ => join [newline] (imap (fun i => context_part w (S i)) retrieved_docs)
  end.

Definition system_prompt : str := lit
"You are an expert assistant specializing in Model Context Protocol (MCP). 
You help developers understand MCP concepts, implement MCP solutions, and troubleshoot MCP-related issues.

Your responses should be:
1. Accurate and based on the provided context
2. Developer-focused with practical examples when relevant
3. Clear and well-structured
4. Honest about limitations - if you don't know something, say so

When answering questions:
- Use the provided context as your primary source of information
- If the context doesn't contain enough information, acknowledge this
- Provide code examples when relevant and available in the context
- Reference specific parts of the documentation when helpful
- Suggest next steps or related topics when appropriate".

Definition user_prompt (query context : str) : str :=
  lit "Based on the following context about Model Context Protocol (MCP), please answer the user's question.

Context:
" ++ context ++ lit "

Question: " ++ query ++ lit "

Please provide a comprehensive answer based on the context provided. If the context doesn't contain enough information to fully answer the question, please say so and provide what information you can.".

Definition apology : str := lit
  "I apologize, but I encountered an error while generating the answer. Please try again.".

(** The [try] block of [generate_answer]:
    [response.choices[0].message.content]. *)
Definition generation_attempt (w : world) (query context : str) : outcome str :=
  choices ← chat_completion w system_prompt (user_prompt query context);
  match choices with
  | content :: _ => Returns content
  | [] => Raises IndexError
  end.

Definition generate_answer (w : world) (query context : str) : str :=
  match generation_attempt w query context with
  | Returns content => content
  | Raises _ => apology
  end.

Record source := {
  s_title : str;
  s_url : str;
  s_relevance_score : PrimFloat.float;
  s_snippet : str
}.

Record rag_response := {
  r_query : str;
  r_answer : str;
  r_context_used : bool;
  r_sources : option (list source)
}.

Definition source_of (doc : search_result) : source :=
  {| s_title := sr_title doc;
     s_url := sr_url doc;
     s_relevance_score := sr_score doc;
     s_snippet := if 200 <? len (sr_text doc)
                  then py_slice (sr_text doc) 0 200 ++ lit "..."
                  else sr_text doc |}.

(** [ask(query, include_sources=True)] *)
Definition ask (w : world) (vs : vector_store) (query : str)
    (include_sources : bool) : outcome rag_response * vector_store :=
  match retrieve_context w vs query None with
  | (Raises e, vs') => (Raises e, vs')
  | (Returns retrieved_docs, vs') =>
      let context := format_context w retrieved_docs in
      let answer := generate_answer w query context in
      (Returns {| r_query := query;
                  r_answer := answer;
                  r_context_used := bool_decide (0 < length retrieved_docs)%nat;
                  r_sources := if include_sources
                               then Some (map source_of retrieved_docs)
                               else None |},
       vs')
  end.


(* ===================================================================== *)
(** ** The vocabulary of the properties *)
(* ===================================================================== *)

(** What the specification asks of a chunk: it is not empty, it is not
    made of whitespace only, and it has at most [chunk_size] characters. *)
Definition good_chunk (chunk_size : Z) (chunk : str) : Prop :=
  chunk <> [] /\ existsb (fun c => negb (is_space c)) chunk = true
  /\ len chunk <= chunk_size.

(** Whether two neighbours of [s] both satisfy [P]. *)
Fixpoint adjacent_pair (P : ascii -> bool) (s : str) : bool :=
  match s with
  | [] => false
  | c :: r =>
      match r with
      | d :: _ => (P c && P d) || adjacent_pair P r
      | [] => false
      end
  end.

(** The metadata that the chunks of one document carry: the chunk at
    position [i] of the block has index [i], every chunk has the size of
    the block as its total, the id is built from the url of the document
    and the index, and url, title and timestamp are those of the
    document. *)
Definition block_of (doc : document) (block : list dict) : Prop :=
  forall (i : nat) (c : dict), block !! i = Some c ->
    c !! "chunk_index"%string = Some (VInt (Z.of_nat i))
    /\ c !! "total_chunks"%string = Some (VInt (Z.of_nat (length block)))
    /\ exists url, doc !! "url"%string = Some url
       /\ c !! "id"%string = Some (VStr (url ++ lit "#chunk_" ++ repr_int (Z.of_nat i)))
       /\ c !! "url"%string = Some (VStr url)
       /\ c !! "title"%string = Some (VStr (default (lit "Untitled") (doc !! "title"%string)))
       /\ c !! "timestamp"%string = Some (VStr (default [] (doc !! "timestamp"%string))).

(** The contract of the embedding service: a successful call returns one
    vector per text of the batch. *)
Definition honours_contract (svc : embed_service) : Prop :=
  forall k batch vs, svc k batch = Some vs -> length vs = length batch.

(** The vector that position [j] of the chunk list is due: the zero vector
    when the call for its batch failed, and otherwise the vector at its
    place in the response for its batch. *)
Definition vector_due (svc : embed_service) (texts : list value) (j : nat)
    : option vec :=
  match svc (j / batch_size)%nat (batch_at texts (j / batch_size * batch_size)) with
  | Some vs => vs !! (j mod batch_size)%nat
  | None => Some zero_vector
  end.

(** The embeddings after the first [m] batches. *)
Definition after_batches (svc : embed_service) (texts : list value) (m : nat)
    : list vec :=
  foldl (embed_batch svc texts) [] (map (fun k => (k * batch_size)%nat) (seq 0 m)).

(** The store can reach its index: it holds a handle, or the connection
    succeeds. *)
Definition reachable (w : world) (vs : vector_store) : Prop :=
  is_Some (index vs) \/ (connect_to_index w vs).1 = Returns tt.



(* ===================================================================== *)
(** ** Sample data *)
(* ===================================================================== *)





Definition fresh_store : vector_store :=
  {| index_name := "mcp-docs"; index := None |}.

Definition sample_match : search_match :=
  {| m_id := lit "https://a#chunk_0"; m_score := 1%float;
     m_text := lit "MCP is a protocol."; m_url := lit "https://a";
     m_title := lit "A"; m_chunk_index := 0; m_total_chunks := 1;
     m_word_count := 4 |}.

(** Nothing can be reached. *)
Definition offline_world : world :=
  {| list_index_names := Raises (RemoteError "connection refused");
     open_index := fun _ => Raises (RemoteError "connection refused");
     describe_index_stats := fun _ => Raises (RemoteError "connection refused");
     query_embedding := fun _ => Raises (RemoteError "connection refused");
     index_query := fun _ _ _ => Raises (RemoteError "connection refused");
     chat_completion := fun _ _ => Raises (RemoteError "connection refused");
     format_score := fun _ => lit "0.000" |}.

(** The index service answers, and has no index. *)
Definition empty_world : world :=
  {| list_index_names := Returns [];
     open_index := fun name => Returns (Handle name);
     describe_index_stats := fun _ => Returns {| total_vector_count := 0; dimension := 1536 |};
     query_embedding := fun _ => Returns [[1%float]];
     index_query := fun _ _ _ => Returns [];
     chat_completion := fun _ _ => Returns [lit "MCP is a protocol."];
     format_score := fun _ => lit "0.000" |}.

(** The index exists and answers queries; the statistics and the text
    generation fail. *)
Definition flaky_world : world :=
  {| list_index_names := Returns ["mcp-docs"%string];
     open_index := fun name => Returns (Handle name);
     describe_index_stats := fun _ => Raises (RemoteError "timeout");
     query_embedding := fun _ => Returns [[1%float]];
     index_query := fun _ _ _ => Returns [sample_match];
     chat_completion := fun _ _ => Raises (RemoteError "rate limit");
     format_score := fun _ => lit "1.000" |}.

(** The input on which the window does not advance: a full stop at index
    6 of a 20-character text, windows of 10 characters, overlap 7. *)
Definition stuck_text : str := lit "aaaaaa.aaaaaaaaaaaaa".

Definition sample_documents : list document :=
  [ {[ "url"%string := lit "https://a"; "title"%string := lit "A";
       "text"%string := lit "Hello   world!!  Bye." ]};
    {[ "url"%string := lit "https://b"; "text"%string := [] ]} ].


Definition sample_store : store :=
  {[ 0%nat := {[ "text"%string := VStr (lit "first"); "chunk_index"%string := VInt 0 ]};
     1%nat := {[ "text"%string := VStr (lit "second"); "chunk_index"%string := VInt 1 ]} ]}.

(** A service that answers every text with the same short vector. *)
Definition constant_service : embed_service :=
  fun _ batch => Some (map (fun _ => [1%float]) batch).



(* ===================================================================== *)
(** ** Further vocabulary *)
(* ===================================================================== *)

(** [chunk] occurs in [text] as the characters from position [at] on. *)
Definition occurs_at (chunk text : str) (at_ : nat) : Prop :=
  exists p q, text = p ++ chunk ++ q /\ length p = at_.

(** [chunk] is a contiguous part of [text]. *)
Definition substring_of (chunk text : str) : Prop :=
  exists at_, occurs_at chunk text at_.

(** Position [i] of [text] lies within an occurrence of one of [chunks]. *)
Definition covered (text : str) (chunks : list str) (i : nat) : Prop :=
  exists chunk at_, chunk ∈ chunks /\ occurs_at chunk text at_
                    /\ (at_ <= i < at_ + length chunk)%nat.


(** The document has a text that is not empty: [process_documents] does
    not skip it. *)
Definition has_text (doc : document) : bool :=
  truthy (default [] (doc !! "text"%string)).

(** The id that [process_documents] gives chunk [i] of the document at
    [url]. *)
Definition chunk_id (url : str) (i : nat) : str :=
  url ++ lit "#chunk_" ++ repr_int (Z.of_nat i).

(** The text field of a chunk dictionary, when it is a string. *)
Definition text_of (c : dict) : option str :=
  match c !! "text"%string with
  | Some (VStr t) => Some t
  | _ => None
  end.

(** A service that fails on every call. *)
Definition failing_service : embed_service := fun _ _ => None.

(** A world whose embedding service returns no vector, with a store that
    is connected already. *)
Definition empty_world_connected : world * vector_store :=
  ({| list_index_names := Returns ["mcp-docs"%string];
      open_index := fun name => Returns (Handle name);
      describe_index_stats := fun _ => Returns {| total_vector_count := 0; dimension := 1536 |};
      query_embedding := fun _ => Returns [];
      index_query := fun _ _ _ => Returns [];
      chat_completion := fun _ _ => Returns [lit "I do not know."];
      format_score := fun _ => lit "0.000" |},
   {| index_name := "mcp-docs"; index := Some (Handle "mcp-docs") |}).


(* ===================================================================== *)
(** ** Upserting the chunks ([PineconeVectorStore.upsert_documents]) *)
(* ===================================================================== *)

(** A vector as it is sent to the index. *)
Record vector_entry := {
  v_id : value;
  v_values : value;
  v_metadata : dict
}.

(** [d[key]] *)
Definition item (d : dict) (key : string) : outcome value :=
  match d !! key with
  | Some v => Returns v
  | None => Raises (KeyError key)
  end.

(** [v[:stop]], for a [stop] that is not negative: strings and lists can
    be sliced, integers cannot. *)
Definition slice_to (v : value) (stop : Z) : outcome value :=
  match v with
  | VStr s => Returns (VStr (py_slice s 0 stop))
  | VVec x => Returns (VVec (take (Z.to_nat stop) x))
  | VInt _ => Raises (TypeError "'int' object is not subscriptable")
  end.

(** The dictionary literal [vector], its entries read in the order of the
    source. *)
Definition vector_of (chunk : dict) : outcome vector_entry :=
  id ← item chunk "id";
  values ← item chunk "embedding";
  text ← item chunk "text";
  text ← slice_to text 1000;
  url ← item chunk "url";
  title ← item chunk "title";
  chunk_index ← item chunk "chunk_index";
  total_chunks ← item chunk "total_chunks";
  word_count ← item chunk "word_count";
  mret {| v_id := id;
          v_values := values;
          v_metadata := list_to_map
            [ ("text"%string, text); ("url"%string, url);
              ("title"%string, title); ("chunk_index"%string, chunk_index);
              ("total_chunks"%string, total_chunks);
              ("word_count"%string, word_count) ] |}.

(** The loop that prepares the vectors. *)
Fixpoint vectors_of (chunks : list dict) : outcome (list vector_entry) :=
  match chunks with
  | [] => Returns []
  | chunk :: rest =>
      vector ← vector_of chunk;
      vectors ← vectors_of rest;
      mret (vector :: vectors)
  end.

(** [range(0, n, step)]: a zero step raises, a negative step gives
    nothing. *)
Definition range_from_zero (n : nat) (step : Z) : outcome (list nat) :=
  if step =? 0 then Raises (ValueError "range() arg 3 must not be zero")
  else if step <? 0 then Returns []
  else
    let s := Z.to_nat step in
    Returns (map (fun k => (k * s)%nat) (seq 0 ((n + s - 1) / s))).

(** One iteration of the batch loop: the batch [vectors[i:i + batch_size]]
    is sent, and a call that raises is reported and passed over. The
    result records the batch and whether the call returned. *)
Definition upsert_batch (up : list vector_entry -> outcome unit)
    (vectors : list vector_entry) (batch_size : Z) (i : nat)
    : list vector_entry * bool :=
  let batch := take (Z.to_nat batch_size) (drop i vectors) in
  (batch, match up batch with Returns _ => true | Raises _ => false end).

(** [upsert_documents(chunks, batch_size=100)], with [upsert] the method
    [index.upsert] of the collaborator. The function returns nothing; the
    model returns the calls that it made, in order. *)
Definition upsert_documents (w : world)
    (upsert : handle -> list vector_entry -> outcome unit)
    (vs : vector_store) (chunks : list dict) (batch_size : option Z)
    : outcome (list (list vector_entry * bool)) * vector_store :=
  let batch_size := default 100 batch_size in
  match ensure_index w vs with
  | (Raises e, vs') => (Raises e, vs')
  | (Returns _, vs') =>
      (vectors ← vectors_of chunks;
       starts ← range_from_zero (length vectors) batch_size;
       mret (map (upsert_batch (fun batch => with_index vs' (fun h => upsert h batch))
                    vectors batch_size) starts),
       vs')
  end.

(** The chunk has every entry that [vector_of] reads, and a text that can
    be sliced. *)
Definition complete (chunk : dict) : Prop :=
  Forall (fun key => is_Some (chunk !! key))
    ["id"; "embedding"; "text"; "url"; "title"; "chunk_index";
     "total_chunks"; "word_count"]%string
  /\ forall n, chunk !! "text"%string <> Some (VInt n).

(* ===================================================================== *)
(** ** Similar questions ([RAGPipeline.get_similar_questions]) *)
(* ===================================================================== *)

(** [str.lower] on one character: the capital letters A..Z and the
    accented capitals. *)
Definition lower_char (c : ascii) : ascii :=
  let n := code c in
  if ((65 <=? n) && (n <=? 90))
     || ((192 <=? n) && (n <=? 222) && negb (n =? 215))
  then ascii_of_N (Z.to_N (n + 32))
  else c.

Definition lower (s : str) : str := map lower_char s.

(** [s.startswith(prefix)] *)
Fixpoint startswith (s prefix : str) : bool :=
  match prefix, s with
  | [], _ => true
  | p :: prefix', c :: s' => Ascii.eqb c p && startswith s' prefix'
  | _ :: _, [] => false
  end.

(** [s.split(sep)] for a one-character separator. *)
Fixpoint split_on (sep : ascii) (s : str) : list str :=
  match s with
  | [] => [[]]
  | c :: r =>
      if Ascii.eqb c sep then [] :: split_on sep r
      else
        match split_on sep r with
        | h :: t => (c :: h) :: t
        | [] => [[c]]
        end
  end.

Definition question_words : list str :=
  [lit "how"; lit "what"; lit "when"; lit "where"; lit "why"; lit "which"].

(** The test on one stripped sentence. *)
Definition looks_like_question (sentence : str) : bool :=
  existsb (startswith (lower sentence)) question_words
  && (10 <? len sentence) && (len sentence <? 100).

(** The questions found in one text. *)
Definition questions_in (text : str) : list str :=
  map (fun sentence => sentence ++ lit "?")
      (List.filter looks_like_question (map strip (split_on "."%char text))).

(** The list [similar_questions] once the two loops are through. *)
Definition question_candidates (threshold : PrimFloat.float)
    (retrieved_docs : list search_result) : list str :=
  concat (map (fun doc => if PrimFloat.ltb threshold (sr_score doc)
                          then questions_in (sr_text doc) else [])
              retrieved_docs).

(** [get_similar_questions(query, threshold)]; [set_order] is the order
    in which a set built from a list is iterated. *)
Definition get_similar_questions (w : world) (set_order : list str -> list str)
    (vs : vector_store) (query : str) (threshold : PrimFloat.float)
    : outcome (list str) * vector_store :=
  match retrieve_context w vs query (Some 10) with
  | (Raises e, vs') => (Raises e, vs')
  | (Returns retrieved_docs, vs') =>
      (Returns (take 5 (set_order (question_candidates threshold retrieved_docs))),
       vs')
  end.

(** What is known of the iteration of a set: every element of the list
    once, and nothing else. *)
Definition is_set_order (set_order : list str -> list str) : Prop :=
  forall xs, NoDup (set_order xs) /\ forall x, x ∈ set_order xs <-> x ∈ xs.

(** What every returned question looks like: a sentence followed by a
    question mark, where the sentence has more than 10 and fewer than 100
    characters, holds no full stop, neither starts nor ends with
    whitespace, and starts, case apart, with a question word. *)
Definition question_shaped (q : str) : Prop :=
  exists sentence,
    q = sentence ++ lit "?"
    /\ 10 < len sentence < 100
    /\ "."%char ∉ sentence
    /\ strip sentence = sentence
    /\ Exists (fun word => startswith (lower sentence) word = true) question_words.

(* ===================================================================== *)
(** ** The HTTP handlers ([app/main.py]) *)
(* ===================================================================== *)

Inductive http_exception := HTTPException (status_code : Z) (detail : str).

Definition status_of (h : http_exception) : Z :=
  match h with HTTPException status_code _ => status_code end.

(** What the [try] block of a handler can raise. *)
Inductive raised :=
  | PyExc (e : exn)
  | HttpExc (h : http_exception).

Record question_request := {
  rq_question : str;
  rq_include_sources : bool;
  rq_top_k : option Z
}.

Record question_response := {
  qr_query : str;
  qr_answer : str;
  qr_context_used : bool;
  qr_sources : option (list source);
  qr_processing_time : PrimFloat.float
}.

(** The [try] block of [ask_question]; [rag_pipeline] is the global, which
    is [None] until the startup has run. *)
Definition ask_question_attempt (w : world) (elapsed : PrimFloat.float)
    (rag_pipeline : option vector_store) (request : question_request)
    : (question_response + raised) * option vector_store :=
  match rag_pipeline with
  | None =>
      (inr (HttpExc (HTTPException 503 (lit "RAG pipeline not initialized"))), None)
  | Some vs =>
      match ask w vs (rq_question request) (rq_include_sources request) with
      | (Raises e, vs') => (inr (PyExc e), Some vs')
      | (Returns response, vs') =>
          let sources :=
            if rq_include_sources request then
              match r_sources response with
              | Some (s :: rest) => Some (s :: rest)
              | _ => None
              end
            else None in
          (inl {| qr_query := r_query response;
                  qr_answer := r_answer response;
                  qr_context_used := r_context_used response;
                  qr_sources := sources;
                  qr_processing_time := elapsed |},
           Some vs')
      end
  end.

(** [ask_question]: whatever the block raises is raised again as an HTTP
    exception; [describe] is [str] on exceptions. *)
Definition ask_question (w : world) (describe : raised -> str)
    (elapsed : PrimFloat.float) (rag_pipeline : option vector_store)
    (request : question_request)
    : (question_response + http_exception) * option vector_store :=
  match ask_question_attempt w elapsed rag_pipeline request with
  | (inl response, pipeline') => (inl response, pipeline')
  | (inr e, pipeline') =>
      (inr (HTTPException 500 (lit "Error processing question: " ++ describe e)),
       pipeline')
  end.

Record health_response := {
  h_status : str;
  h_timestamp : str;
  h_version : str;
  h_services : gmap string str
}.

(** ["ok" if key else "missing_key"] *)
Definition key_status (key : option str) : str :=
  match key with
  | Some (_ :: _) => lit "ok"
  | _ => lit "missing_key"
  end.

(** [health_check]; [global_store] is the global [vector_store], [now] the
    time stamp. *)
Definition health_check (w : world) (openai_api_key pinecone_api_key : option str)
    (now : str) (global_store : option vector_store)
    : health_response * option vector_store :=
  let '(vector_store_status, global_store') :=
    match global_store with
    | None => (lit "ok", None)
    | Some vs =>
        match get_index_stats w vs with
        | (Returns _, vs') => (lit "ok", Some vs')
        | (Raises _, vs') => (lit "error", Some vs')
        end
    end in
  ({| h_status := lit "healthy";
      h_timestamp := now;
      h_version := lit "1.0.0";
      h_services := {[ "openai"%string := key_status openai_api_key;
                       "pinecone"%string := key_status pinecone_api_key;
                       "vector_store"%string := vector_store_status ]} |},
   global_store').

(** The number of vectors of a call. *)
Definition len_batch (call : list vector_entry * bool) : Z :=
  Z.of_nat (length call.1).

(** A chunk with every entry, and one that has only an id. *)
Definition sample_embedded : dict :=
  list_to_map
    [ ("id"%string, VStr (lit "https://a#chunk_0"));
      ("text"%string, VStr (lit "MCP is a protocol."));
      ("url"%string, VStr (lit "https://a"));
      ("title"%string, VStr (lit "A"));
      ("chunk_index"%string, VInt 0);
      ("total_chunks"%string, VInt 1);
      ("timestamp"%string, VStr []);
      ("word_count"%string, VInt 4);
      ("embedding"%string, VVec [1%float]) ].

Definition sample_chunk_with_id : dict :=
  {[ "id"%string := VStr (lit "https://a#chunk_1") ]}.

(** A match whose text holds two questions, and a world that finds it. *)
Definition question_match : search_match :=
  {| m_id := lit "https://a#chunk_0"; m_score := 1%float;
     m_text := lit "MCP is open. How does MCP work.  What is an MCP server. Why.";
     m_url := lit "https://a"; m_title := lit "A";
     m_chunk_index := 0; m_total_chunks := 1; m_word_count := 13 |}.

Definition question_world : world :=
  {| list_index_names := Returns ["mcp-docs"%string];
     open_index := fun name => Returns (Handle name);
     describe_index_stats := fun _ => Raises (RemoteError "timeout");
     query_embedding := fun _ => Returns [[1%float]];
     index_query := fun _ _ _ => Returns [question_match];
     chat_completion := fun _ _ => Raises (RemoteError "rate limit");
     format_score := fun _ => lit "1.000" |}.

Definition question_store : vector_store :=
  {| index_name := "mcp-docs"; index := Some (Handle "mcp-docs") |}.

(* ===================================================================== *)
(** ** Properties of the string primitives *)
(* ===================================================================== *)

Section string_facts.
Implicit Types (s : str) (c : ascii).

Lemma len_nonneg s : 0 <= len s.
Proof. unfold len. lia. Qed.

Lemma norm_index_range n i : 0 <= n -> 0 <= norm_index n i <= n.
Proof. unfold norm_index. destruct (i <? 0) eqn:E; lia. Qed.

Lemma norm_index_id n i : 0 <= i <= n -> norm_index n i = i.
Proof. unfold norm_index. destruct (i <? 0) eqn:E; lia. Qed.

(** Normalisation never stretches an interval. *)
Lemma norm_index_gap n a b :
  0 <= n -> a <= b -> norm_index n b - norm_index n a <= b - a.
Proof.
  unfold norm_index.
  destruct (a <? 0) eqn:Ea, (b <? 0) eqn:Eb; lia.
Qed.

Lemma len_py_slice s a b :
  len (py_slice s a b) <= Z.max 0 (norm_index (len s) b - norm_index (len s) a).
Proof.
  unfold py_slice, len. rewrite length_take, length_drop. lia.
Qed.

Lemma last_index_range c s i :
  0 <= i ->
  last_index c s i = -1 \/ (i <= last_index c s i < i + len s).
Proof.
  revert i. induction s as [|x r IH]; intros i Hi; simpl; [by left|].
  unfold len in *. simpl length.
  destruct (IH (i + 1)) as [E | E]; [lia | |].
  - rewrite E. simpl. destruct (Ascii.eqb x c); [right | left]; lia.
  - destruct (0 <=? last_index c r (i + 1)) eqn:E0; [right | ]; lia.
Qed.

(** What [rfind] returns is [-1] or an index of the searched window. *)
Lemma rfind_range s c a b :
  rfind s c a b = -1
  \/ (norm_index (len s) a <= rfind s c a b < norm_index (len s) b).
Proof.
  unfold rfind.
  pose proof (norm_index_range (len s) a (len_nonneg s)) as Ha.
  pose proof (len_py_slice s a b) as Hl.
  destruct (last_index_range c (py_slice s a b) (norm_index (len s) a))
    as [E | E]; [lia | by left | right].
  lia.
Qed.

Lemma rfind_lower s c a b : -1 <= rfind s c a b.
Proof.
  pose proof (norm_index_range (len s) a (len_nonneg s)).
  destruct (rfind_range s c a b); lia.
Qed.

Lemma lstrip_length s : (length (lstrip s) <= length s)%nat.
Proof.
  induction s as [|c r IH]; simpl; [lia|].
  destruct (is_space c); simpl; lia.
Qed.

Lemma strip_length s : (length (strip s) <= length s)%nat.
Proof.
  unfold strip, rstrip. rewrite length_rev.
  etrans; [apply lstrip_length|]. rewrite length_rev. apply lstrip_length.
Qed.

Lemma len_strip s : len (strip s) <= len s.
Proof. unfold len. pose proof (strip_length s). lia. Qed.

(** [lstrip] leaves nothing, or something that starts with a character
    that is not whitespace. *)
Lemma lstrip_head s :
  match lstrip s with [] => True | c :: _ => is_space c = false end.
Proof.
  induction s as [|c r IH]; simpl; [done|].
  destruct (is_space c) eqn:E; [done | by rewrite E].
Qed.

Lemma lstrip_suffix s : exists p, s = p ++ lstrip s /\ forallb is_space p = true.
Proof.
  induction s as [|c r (p & Hp & Hs)]; simpl.
  - by exists [].
  - destruct (is_space c) eqn:E.
    + exists (c :: p). simpl. rewrite E, Hs. split; [by f_equal | done].
    + by exists [].
Qed.

(** A non-empty result of [strip] starts and ends with characters that
    are not whitespace. *)
Lemma strip_head s :
  match strip s with [] => True | c :: _ => is_space c = false end.
Proof.
  unfold strip, rstrip.
  pose proof (lstrip_head s) as Hh.
  destruct (lstrip_suffix (rev (lstrip s))) as (p & Hp & Hs).
  apply (f_equal (@rev ascii)) in Hp.
  rewrite rev_involutive, rev_app_distr in Hp.
  destruct (rev (lstrip (rev (lstrip s)))) as [|c t] eqn:E; [done|].
  rewrite Hp in Hh. simpl in Hh. done.
Qed.

Lemma strip_last s :
  match rev (strip s) with [] => True | c :: _ => is_space c = false end.
Proof.
  unfold strip, rstrip. rewrite rev_involutive. apply lstrip_head.
Qed.

Lemma truthy_nonempty s : truthy s = true <-> s <> [].
Proof. destruct s; simpl; split; congruence. Qed.
End string_facts.


(* ===================================================================== *)
(** ** The chunker *)
(* ===================================================================== *)

Section chunker_facts.
Implicit Types (text chunk : str) (chunks : list str).

(** The window never holds more than [chunk_size] characters, wherever
    the snapping puts its end. *)
Lemma window_length text chunk_size start :
  0 < chunk_size ->
  len (py_slice text start (window_end text chunk_size start)) <= chunk_size.
Proof.
  intros Hcs.
  pose proof (len_nonneg text) as Hn.
  pose proof (norm_index_range (len text) start Hn) as Hs.
  pose proof (norm_index_gap (len text) start (start + chunk_size) Hn) as Hg.
  pose proof (norm_index_range (len text) (start + chunk_size) Hn) as He.
  unfold window_end.
  set (se := rfind text "."%char start (start + chunk_size)).
  set (we := rfind text " "%char start (start + chunk_size)).
  pose proof (rfind_range text "."%char start (start + chunk_size)) as Hse.
  pose proof (rfind_range text " "%char start (start + chunk_size)) as Hwe.
  fold se in Hse. fold we in Hwe.
  destruct (start + chunk_size <? len text) eqn:E1;
    [destruct (start + chunk_size / 2 <? se) eqn:E2;
      [|destruct (start + chunk_size / 2 <? we) eqn:E3]|].
  - pose proof (len_py_slice text start (se + 1)) as Hl.
    destruct Hse as [Hse | Hse].
    + rewrite Hse in *. simpl in Hl.
      rewrite (norm_index_id _ 0) in Hl by lia. lia.
    + rewrite (norm_index_id _ (se + 1)) in Hl by lia. lia.
  - pose proof (len_py_slice text start we) as Hl.
    destruct Hwe as [Hwe | Hwe].
    + destruct Hse as [Hse | Hse]; [|lia].
      apply Z.ltb_ge in E2. apply Z.ltb_lt in E3. lia.
    + rewrite (norm_index_id _ we) in Hl by lia. lia.
  - pose proof (len_py_slice text start (start + chunk_size)). lia.
  - pose proof (len_py_slice text start (start + chunk_size)). lia.
Qed.

(** A chunk that the loop keeps is a good chunk. *)
Lemma kept_chunk_good text chunk_size start :
  0 < chunk_size ->
  let chunk := strip (py_slice text start (window_end text chunk_size start)) in
  truthy chunk = true -> good_chunk chunk_size chunk.
Proof.
  intros Hcs chunk Ht. split; [by apply truthy_nonempty|]. split.
  - pose proof (strip_head (py_slice text start (window_end text chunk_size start))) as Hh.
    fold chunk in Hh. destruct chunk as [|c t]; [done|].
    simpl. by rewrite Hh.
  - etrans; [apply len_strip|]. by apply window_length.
Qed.

Lemma chunk_loop_good fuel text chunk_size overlap start chunks out :
  0 < chunk_size ->
  Forall (good_chunk chunk_size) chunks ->
  chunk_loop fuel text chunk_size overlap start chunks = Some out ->
  Forall (good_chunk chunk_size) out.
Proof.
  intros Hcs. revert start chunks.
  induction fuel as [|fuel IH]; intros start chunks Hall; simpl; [done|].
  destruct (start <? len text); [|by intros [= <-]].
  set (chunk := strip (py_slice text start (window_end text chunk_size start))).
  assert (Forall (good_chunk chunk_size)
            (if truthy chunk then chunks ++ [chunk] else chunks)) as Hall'.
  { destruct (truthy chunk) eqn:Ht; [|done].
    apply Forall_app. split; [done|].
    apply Forall_singleton. by apply kept_chunk_good. }
  destruct (len text <=? window_end text chunk_size start - overlap).
  - by intros [= <-].
  - by apply IH.
Qed.

(** Past the midpoint: a window that starts inside the text ends more
    than half a [chunk_size] after its start. *)
Lemma window_end_lower text chunk_size start :
  0 < chunk_size ->
  start + chunk_size / 2 + 1 <= window_end text chunk_size start.
Proof.
  intros Hcs. unfold window_end.
  assert (chunk_size / 2 + 1 <= chunk_size) by (pose proof (Z.div_lt chunk_size 2); lia).
  set (se := rfind text "."%char start (start + chunk_size)).
  set (we := rfind text " "%char start (start + chunk_size)).
  destruct (start + chunk_size <? len text); [|lia].
  destruct (start + chunk_size / 2 <? se) eqn:E2; [lia|].
  destruct (start + chunk_size / 2 <? we) eqn:E3; lia.
Qed.

(** With an overlap of at most half a [chunk_size] the start strictly
    advances, and the loop ends within one iteration per character. *)
Lemma chunk_loop_terminates fuel text chunk_size overlap start chunks :
  0 < chunk_size -> overlap <= chunk_size / 2 ->
  Z.max 0 (len text - start) < Z.of_nat fuel ->
  is_Some (chunk_loop fuel text chunk_size overlap start chunks).
Proof.
  intros Hcs Hov. revert start chunks.
  induction fuel as [|fuel IH]; intros start chunks Hfuel; simpl; [lia|].
  destruct (start <? len text) eqn:E; [|done].
  pose proof (window_end_lower text chunk_size start Hcs).
  destruct (len text <=? window_end text chunk_size start - overlap) eqn:E'; [done|].
  apply IH. lia.
Qed.

Lemma chunk_text_terminates text chunk_size overlap :
  let cs := default settings.CHUNK_SIZE chunk_size in
  let ov := default settings.CHUNK_OVERLAP overlap in
  0 < cs -> ov <= cs / 2 ->
  is_Some (chunk_text (enough_fuel text) text chunk_size overlap).
Proof.
  intros cs ov Hcs Hov. unfold chunk_text. fold cs ov.
  destruct (len text <=? cs); [done|].
  apply chunk_loop_terminates; [done..|].
  unfold enough_fuel, len. lia.
Qed.

(** The configured parameters, 1000 and 200, are in that range. *)
Lemma chunk_text_default_terminates text :
  is_Some (chunk_text (enough_fuel text) text None None).
Proof. by apply chunk_text_terminates. Qed.

(** More fuel does not change a result. *)
Lemma chunk_loop_fuel_mono fuel fuel' text chunk_size overlap start chunks out :
  (fuel <= fuel')%nat ->
  chunk_loop fuel text chunk_size overlap start chunks = Some out ->
  chunk_loop fuel' text chunk_size overlap start chunks = Some out.
Proof.
  revert fuel' start chunks.
  induction fuel as [|fuel IH]; intros fuel' start chunks Hle; simpl; [done|].
  destruct fuel' as [|fuel']; [lia|]. simpl.
  destruct (start <? len text); [|done].
  destruct (len text <=? _); [done|].
  apply IH. lia.
Qed.
End chunker_facts.

Lemma stuck_window : window_end stuck_text 10 0 - 7 = 0.
Proof. reflexivity. Qed.

Lemma stuck_loop fuel chunks : chunk_loop fuel stuck_text 10 7 0 chunks = None.
Proof.
  revert chunks. induction fuel as [|fuel IH]; intros chunks; [done|].
  change (chunk_loop (S fuel) stuck_text 10 7 0 chunks)
    with (chunk_loop fuel stuck_text 10 7 0 (chunks ++ [lit "aaaaaa."])).
  apply IH.
Qed.

(** C3 (as the code behaves). With [chunk_size = 10] and [overlap = 7],
    which satisfy [0 <= overlap < chunk_size], [chunk_text] does not
    terminate on a 20-character text whose only full stop is at index 6:
    the first window is cut after the full stop, at 7, the next start is
    [7 - 7 = 0] again, and no number of iterations ends the loop. *)
Theorem chunk_text_overlap_7_of_10_diverges :
  0 <= 7 < 10 /\
  window_end stuck_text 10 0 - 7 = 0 /\
  forall fuel, chunk_text fuel stuck_text (Some 10) (Some 7) = None.
Proof.
  split; [lia|]. split; [reflexivity|].
  intros fuel. unfold chunk_text. simpl default.
  change (len stuck_text <=? 10) with false. cbv iota.
  apply stuck_loop.
Qed.

(** C4, counterexample. A text of one space is not longer than
    [chunk_size], so it is returned as it is: the result holds a chunk that
    is whitespace only. The same happens for the empty text. *)
Lemma chunk_text_returns_blank_chunk :
  chunk_text (enough_fuel (lit " ")) (lit " ") (Some 10) (Some 2) = Some [lit " "]
  /\ ~ Forall (good_chunk 10) [lit " "]
  /\ chunk_text (enough_fuel []) [] (Some 10) (Some 2) = Some [[]]
  /\ ~ Forall (good_chunk 10) [[]].
Proof.
  split; [reflexivity|]. split.
  { intros H. rewrite Forall_singleton in H. destruct H as (_ & H & _). discriminate. }
  split; [reflexivity|].
  intros H. rewrite Forall_singleton in H. by destruct H as (H & _).
Qed.

(** C4 (amended to texts longer than [chunk_size]). For a text longer than
    a positive [chunk_size], whatever the overlap, every chunk that
    [chunk_text] returns is non-empty, is not whitespace only and has at
    most [chunk_size] characters: the chunks that strip to nothing are
    dropped. *)
Theorem chunk_text_chunks_good fuel text chunk_size overlap chunks :
  let cs := default settings.CHUNK_SIZE chunk_size in
  0 < cs -> cs < len text ->
  chunk_text fuel text chunk_size overlap = Some chunks ->
  Forall (good_chunk cs) chunks.
Proof.
  intros cs Hcs Hlen. unfold chunk_text. fold cs.
  destruct (len text <=? cs) eqn:E; [lia|].
  by apply chunk_loop_good.
Qed.

Lemma chunk_text_chunks_good_witness :
  let text := lit "aaaa bbbb cccc. dddd eeee ffff" in
  let chunks :=
    [lit "aaaa bbbb"; lit "bb cccc."; lit "c. dddd"; lit "dd eeee"; lit "ee ffff"] in
  chunk_text (enough_fuel text) text (Some 10) (Some 2) = Some chunks
  /\ Forall (good_chunk 10) chunks.
Proof.
  intros text chunks.
  assert (chunk_text (enough_fuel text) text (Some 10) (Some 2) = Some chunks) as E
    by (vm_compute; reflexivity).
  split; [exact E|].
  apply (chunk_text_chunks_good (enough_fuel text) text (Some 10) (Some 2) chunks);
    [reflexivity | reflexivity | exact E].
Defined.

(** C6. A text of at most [chunk_size] characters is returned as the only
    chunk, unchanged; the loop is not entered, so no iteration is needed. *)
Theorem chunk_text_short fuel text chunk_size overlap :
  len text <= default settings.CHUNK_SIZE chunk_size ->
  chunk_text fuel text chunk_size overlap = Some [text].
Proof.
  intros H. unfold chunk_text.
  destruct (len text <=? default settings.CHUNK_SIZE chunk_size) eqn:E; [done|lia].
Qed.

Lemma chunk_text_short_witness :
  chunk_text 0 (lit "hello") (Some 10) (Some 2) = Some [lit "hello"].
Proof.
  apply (chunk_text_short 0 (lit "hello") (Some 10) (Some 2)).
  vm_compute. discriminate.
Defined.


(* ===================================================================== *)
(** ** Text normalisation *)
(* ===================================================================== *)

Section clean_text_facts.
Implicit Types (s p q : str) (c d : ascii).

Lemma adjacent_pair_app_r P p s :
  adjacent_pair P (p ++ s) = false -> adjacent_pair P s = false.
Proof.
  induction p as [|c p IH]; [done|].
  change ((c :: p) ++ s) with (c :: (p ++ s)). simpl.
  destruct (p ++ s) eqn:E.
  - destruct p; [|done]. simpl in E. by subst.
  - intros H. apply orb_false_elim in H as [_ H]. by apply IH.
Qed.

Lemma adjacent_pair_rev P s :
  adjacent_pair P (rev s) = adjacent_pair P s.
Proof.
  assert (forall s c, adjacent_pair P (s ++ [c])
            = adjacent_pair P s || match rev s with d :: _ => P d && P c | [] => false end)
    as Hsnoc.
  { clear s. induction s as [|a s IH]; intros c; [done|].
    change ((a :: s) ++ [c]) with (a :: (s ++ [c])).
    destruct s as [|b s].
    - simpl. by rewrite !orb_false_r.
    - change (adjacent_pair P (a :: (b :: s) ++ [c]))
        with ((P a && P b) || adjacent_pair P ((b :: s) ++ [c])).
      rewrite IH.
      change (adjacent_pair P (a :: b :: s))
        with ((P a && P b) || adjacent_pair P (b :: s)).
      rewrite <- orb_assoc. f_equal. f_equal.
      simpl rev. destruct (rev s ++ [b]) eqn:E; [by destruct (rev s)|done]. }
  induction s as [|c s IH]; [done|]. simpl rev. rewrite Hsnoc, IH, rev_involutive.
  destruct s as [|d s]; simpl; [done|]. rewrite orb_comm. f_equal. apply andb_comm.
Qed.

Lemma adjacent_pair_lstrip P s :
  adjacent_pair P s = false -> adjacent_pair P (lstrip s) = false.
Proof.
  destruct (lstrip_suffix s) as (p & Hp & _). intros H.
  rewrite Hp in H. by apply adjacent_pair_app_r in H.
Qed.

(** [strip] keeps a contiguous part of the text, so it creates no pair
    of neighbours. *)
Lemma adjacent_pair_strip P s :
  adjacent_pair P s = false -> adjacent_pair P (strip s) = false.
Proof.
  intros H. unfold strip, rstrip. rewrite adjacent_pair_rev.
  apply adjacent_pair_lstrip. rewrite adjacent_pair_rev.
  by apply adjacent_pair_lstrip.
Qed.

Lemma Forall_lstrip (P : ascii -> Prop) s : Forall P s -> Forall P (lstrip s).
Proof.
  destruct (lstrip_suffix s) as (p & Hp & _). intros H.
  rewrite Hp in H. by apply Forall_app in H as [_ H].
Qed.

Lemma Forall_strip (P : ascii -> Prop) s : Forall P s -> Forall P (strip s).
Proof.
  intros H. unfold strip, rstrip.
  apply Forall_rev, Forall_lstrip, Forall_rev. by apply Forall_lstrip.
Qed.

Lemma Forall_sub_punct (P : ascii -> Prop) s : Forall P s -> Forall P (sub_punct s).
Proof.
  induction s as [|c r IH]; [done|]. intros H.
  apply Forall_cons in H as [Hc Hr]. specialize (IH Hr).
  simpl. destruct r as [|d r']; [by apply Forall_singleton|].
  destruct (is_terminal c && is_terminal d); [done|].
  by apply Forall_cons.
Qed.

(** A character that is not terminal punctuation is never removed. *)
Lemma sub_punct_keeps c s :
  is_terminal c = false -> sub_punct (c :: s) = c :: sub_punct s.
Proof. intros H. simpl. rewrite H. by destruct s. Qed.

(** After the third substitution no two terminal punctuation characters
    are neighbours. *)
Lemma sub_punct_no_pair s : adjacent_pair is_terminal (sub_punct s) = false.
Proof.
  induction s as [|c r IH]; [done|].
  destruct r as [|d r']; [done|].
  change (sub_punct (c :: d :: r'))
    with (if is_terminal c && is_terminal d then sub_punct (d :: r')
          else c :: sub_punct (d :: r')).
  destruct (is_terminal c) eqn:Ec, (is_terminal d) eqn:Ed; simpl andb; cbv iota;
    try exact IH.
  - rewrite (sub_punct_keeps d r' Ed) in *.
    change (adjacent_pair is_terminal (c :: d :: sub_punct r'))
      with ((is_terminal c && is_terminal d)
            || adjacent_pair is_terminal (d :: sub_punct r')).
    by rewrite Ed, andb_false_r, IH.
  - destruct (sub_punct (d :: r')) as [|e t] eqn:E; [done|].
    change (adjacent_pair is_terminal (c :: e :: t))
      with ((is_terminal c && is_terminal e) || adjacent_pair is_terminal (e :: t)).
    by rewrite Ec, IH.
  - destruct (sub_punct (d :: r')) as [|e t] eqn:E; [done|].
    change (adjacent_pair is_terminal (c :: e :: t))
      with ((is_terminal c && is_terminal e) || adjacent_pair is_terminal (e :: t)).
    by rewrite Ec, IH.
Qed.

Lemma sub_special_allowed s : Forall (fun c => allowed c = true) (sub_special s).
Proof.
  unfold sub_special. apply Forall_map, Forall_forall. intros c _. simpl.
  by destruct (allowed c) eqn:E.
Qed.

(** What [clean_text] does guarantee: only characters of the allow-list,
    no two neighbouring characters from [. ! ?], and neither a leading
    nor a trailing whitespace character. *)
Lemma clean_text_guarantees s :
  Forall (fun c => allowed c = true) (clean_text s)
  /\ adjacent_pair is_terminal (clean_text s) = false
  /\ match clean_text s with [] => True | c :: _ => is_space c = false end
  /\ match rev (clean_text s) with [] => True | c :: _ => is_space c = false end.
Proof.
  unfold clean_text. split; [|split; [|split]].
  - apply Forall_strip, Forall_sub_punct, sub_special_allowed.
  - apply adjacent_pair_strip, sub_punct_no_pair.
  - apply strip_head.
  - apply strip_last.
Qed.
End clean_text_facts.

(** C7 (as the code behaves). The characters outside the allow-list are
    replaced by spaces after the runs of whitespace have been collapsed,
    so two of them in a row leave two spaces in a row: on [a@@b] the
    result is [a  b], which contains a run of two whitespace characters. *)
Theorem clean_text_leaves_whitespace_run :
  clean_text (lit "a@@b") = lit "a  b"
  /\ adjacent_pair is_space (clean_text (lit "a@@b")) = true.
Proof. split; reflexivity. Qed.


(* ===================================================================== *)
(** ** Chunk metadata *)
(* ===================================================================== *)

Section process_documents_facts.
Implicit Types (doc : document) (docs : list document) (block out : list dict).

Lemma chunk_text_default_spec text :
  chunk_text (enough_fuel text) text None None = Some (chunk_text_default text).
Proof.
  unfold chunk_text_default.
  by destruct (chunk_text_default_terminates text) as [chunks ->].
Qed.

Lemma chunk_objects_length doc total i chunks out :
  chunk_objects doc total i chunks = Returns out -> length out = length chunks.
Proof.
  revert i out. induction chunks as [|chunk rest IH]; intros i out; simpl.
  - by intros [= <-].
  - destruct (chunk_data doc i chunk total) as [d|]; [|done]. simpl.
    destruct (chunk_objects doc total (S i) rest) as [ds|] eqn:E; [|done].
    intros [= <-]. simpl. f_equal. by eapply IH.
Qed.

Lemma chunk_objects_lookup doc total i chunks out j c :
  chunk_objects doc total i chunks = Returns out ->
  out !! j = Some c ->
  exists chunk, chunks !! j = Some chunk
    /\ chunk_data doc (i + j) chunk total = Returns c.
Proof.
  revert i out j. induction chunks as [|chunk rest IH]; intros i out j; simpl.
  - by intros [= <-].
  - destruct (chunk_data doc i chunk total) as [d|] eqn:Ed; [|done]. simpl.
    destruct (chunk_objects doc total (S i) rest) as [ds|] eqn:E; [|done].
    intros [= <-]. destruct j as [|j]; simpl.
    + intros [= <-]. exists chunk. by rewrite Nat.add_0_r.
    + intros Hj. destruct (IH _ _ _ E Hj) as (ch & ? & ?).
      exists ch. by rewrite <- Nat.add_succ_comm.
Qed.

Lemma chunk_data_fields doc i chunk total c :
  chunk_data doc i chunk total = Returns c ->
  c !! "chunk_index"%string = Some (VInt (Z.of_nat i))
  /\ c !! "total_chunks"%string = Some (VInt (Z.of_nat total))
  /\ c !! "text"%string = Some (VStr chunk)
  /\ exists url, doc !! "url"%string = Some url
     /\ c !! "id"%string = Some (VStr (url ++ lit "#chunk_" ++ repr_int (Z.of_nat i)))
     /\ c !! "url"%string = Some (VStr url)
     /\ c !! "title"%string = Some (VStr (default (lit "Untitled") (doc !! "title"%string)))
     /\ c !! "timestamp"%string = Some (VStr (default [] (doc !! "timestamp"%string))).
Proof.
  unfold chunk_data. destruct (doc !! "url"%string) as [url|]; [|done].
  intros [= <-]. repeat split; try reflexivity.
  exists url. repeat split; reflexivity.
Qed.

Lemma document_chunks_block doc block :
  document_chunks doc = Returns block -> block_of doc block.
Proof.
  unfold document_chunks.
  destruct (truthy (default [] (doc !! "text"%string))).
  - set (chunks := chunk_text_default _). intros H i c Hi.
    pose proof (chunk_objects_length _ _ _ _ _ H) as Hlen.
    destruct (chunk_objects_lookup _ _ _ _ _ _ _ H Hi) as (chunk & _ & Hd).
    apply chunk_data_fields in Hd as (? & ? & _ & ?).
    rewrite Hlen. simpl in *. done.
  - intros [= <-] i c Hi. done.
Qed.

(** The chunks of a document are built whenever its text is empty or it
    has a url. *)
Lemma chunk_objects_returns doc total i chunks :
  is_Some (doc !! "url"%string) ->
  exists out, chunk_objects doc total i chunks = Returns out.
Proof.
  intros [url Hurl]. revert i.
  induction chunks as [|chunk rest IH]; intros i; [by eexists|].
  destruct (IH (S i)) as [ds Hds].
  cbn [chunk_objects]. unfold chunk_data at 1. rewrite Hurl, Hds. by eexists.
Qed.

Lemma process_documents_returns docs :
  Forall (fun doc => is_Some (doc !! "url"%string)) docs ->
  exists out, process_documents docs = Returns out.
Proof.
  induction 1 as [|doc docs Hurl _ [out IH]]; simpl; [by eexists|].
  assert (exists ds, document_chunks doc = Returns ds) as [ds ->].
  { unfold document_chunks. destruct (truthy _); [|by eexists].
    by apply chunk_objects_returns. }
  simpl. rewrite IH. simpl. by eexists.
Qed.
End process_documents_facts.

(** C5. Whenever [process_documents] returns, its result is the
    concatenation, in the order of the documents, of one block of chunks
    per document, and in the block of a document the chunk at position [i]
    has [chunk_index = i], for [i] from 0 to the size of the block less
    one, [total_chunks] equal to the size of the block,
    [id = url + "#chunk_" + chunk_index], and the url, title and timestamp
    of the document. *)
Theorem process_documents_metadata (documents : list document) (out : list dict) :
  process_documents documents = Returns out ->
  exists blocks : list (list dict),
    out = concat blocks
    /\ Forall2 (fun doc block =>
                  document_chunks doc = Returns block /\ block_of doc block)
               documents blocks.
Proof.
  revert out. induction documents as [|doc rest IH]; intros out; simpl.
  - intros [= <-]. by exists [].
  - destruct (document_chunks doc) as [ds|] eqn:Ed; [|done]. simpl.
    destruct (process_documents rest) as [out'|]; [|done]. simpl.
    intros [= <-]. destruct (IH out' eq_refl) as (blocks & -> & Hall).
    exists (ds :: blocks). split; [done|].
    constructor; [|done]. split; [done|]. by apply document_chunks_block.
Qed.

Lemma process_documents_metadata_witness :
  exists out,
    process_documents sample_documents = Returns out
    /\ length out = 1%nat
    /\ exists blocks : list (list dict),
         out = concat blocks
         /\ Forall2 (fun doc block =>
                       document_chunks doc = Returns block /\ block_of doc block)
                    sample_documents blocks.
Proof.
  destruct (process_documents sample_documents) as [out|] eqn:E;
    [|vm_compute in E; discriminate].
  exists out. split; [reflexivity|]. split.
  - vm_compute in E. injection E as <-. reflexivity.
  - apply (process_documents_metadata sample_documents out). exact E.
Defined.


(* ===================================================================== *)
(** ** The embedder *)
(* ===================================================================== *)

Section embedder_facts.
Implicit Types (sigma : store) (chunks : list nat) (texts : list value)
  (embeddings : list vec) (svc : embed_service).

Lemma zero_vector_length : length zero_vector = 1536%nat.
Proof. reflexivity. Qed.

(** *** The store: only the [embedding] field is written *)

Lemma set_embedding_field sigma p l key :
  key <> "embedding"%string ->
  field (set_embedding sigma p) l key = field sigma l key.
Proof.
  intros Hkey. unfold field, set_embedding.
  destruct (decide (p.1 = l)) as [->|Hne].
  - rewrite lookup_alter_eq. destruct (sigma !! l) as [d|]; [|done].
    simpl. by rewrite lookup_insert_ne.
  - by rewrite lookup_alter_ne.
Qed.

Lemma set_embedding_dom sigma p : dom (set_embedding sigma p) = dom sigma.
Proof. apply dom_alter_L. Qed.

Lemma write_embeddings_field sigma (ps : list (nat * vec)) l key :
  key <> "embedding"%string ->
  field (foldl set_embedding sigma ps) l key = field sigma l key.
Proof.
  intros Hkey. revert sigma.
  induction ps as [|p ps IH]; intros sigma; [done|].
  cbn [foldl]. rewrite IH. by apply set_embedding_field.
Qed.

Lemma write_embeddings_dom sigma (ps : list (nat * vec)) :
  dom (foldl set_embedding sigma ps) = dom sigma.
Proof.
  revert sigma. induction ps as [|p ps IH]; intros sigma; [done|].
  cbn [foldl]. rewrite IH. apply set_embedding_dom.
Qed.

(** An object that is not written keeps its dictionary. *)
Lemma write_embeddings_other sigma (ps : list (nat * vec)) l :
  l ∉ ps.*1 -> foldl set_embedding sigma ps !! l = sigma !! l.
Proof.
  revert sigma. induction ps as [|p ps IH]; intros sigma Hl; [done|].
  simpl in *. apply not_elem_of_cons in Hl as [Hne Hl].
  rewrite IH by done. unfold set_embedding. by rewrite lookup_alter_ne.
Qed.

(** In a list without repetition the object at position [j] ends with
    the vector at position [j]. *)
Lemma write_embeddings_at sigma chunks embeddings j l e :
  NoDup chunks ->
  chunks !! j = Some l -> embeddings !! j = Some e ->
  is_Some (sigma !! l) ->
  field (foldl set_embedding sigma (zip chunks embeddings)) l "embedding"
  = Some (VVec e).
Proof.
  intros Hnd. revert sigma embeddings j.
  induction Hnd as [|l0 chunks Hnotin Hnd IH]; intros sigma embeddings j Hl He Hs;
    [done|].
  destruct embeddings as [|e0 embeddings]; [done|]. simpl.
  destruct j as [|j]; simpl in *.
  - injection Hl as ->. injection He as ->.
    unfold field. rewrite write_embeddings_other.
    + unfold set_embedding. simpl. rewrite lookup_alter_eq.
      destruct Hs as [d ->]. simpl. by rewrite lookup_insert_eq.
    + intros Hin. apply Hnotin.
      apply list_elem_of_fmap in Hin as ([l' e'] & -> & Hin).
      apply elem_of_zip_l in Hin. done.
  - apply (IH _ _ j); [done..|].
    unfold set_embedding. by apply lookup_alter_is_Some.
Qed.

(** *** The texts *)

Lemma chunk_texts_spec sigma chunks texts :
  chunk_texts sigma chunks = Returns texts ->
  length texts = length chunks
  /\ Forall (fun l => is_Some (sigma !! l)) chunks.
Proof.
  revert texts. induction chunks as [|l rest IH]; intros texts; simpl.
  - by intros [= <-].
  - unfold field at 1. destruct (sigma !! l) as [d|] eqn:Ed; [|done]. simpl.
    destruct (d !! "text"%string) as [t|]; [|done].
    destruct (chunk_texts sigma rest) as [ts|]; [|done]. simpl.
    intros [= <-]. destruct (IH ts eq_refl) as [? ?]. simpl.
    split; [by f_equal|]. constructor; [by eexists|done].
Qed.

Lemma chunk_texts_returns sigma chunks :
  Forall (fun l => is_Some (field sigma l "text")) chunks ->
  exists texts, chunk_texts sigma chunks = Returns texts.
Proof.
  induction 1 as [|l rest [t Ht] _ [ts IH]]; simpl; [by eexists|].
  rewrite Ht, IH. by eexists.
Qed.

(** *** The batches *)

Lemma after_batches_S svc texts m :
  after_batches svc texts (S m)
  = embed_batch svc texts (after_batches svc texts m) (m * batch_size).
Proof.
  unfold after_batches. by rewrite seq_S, map_app, foldl_app.
Qed.

Lemma batch_at_length texts i :
  length (batch_at texts i) = (batch_size `min` (length texts - i))%nat.
Proof. unfold batch_at. by rewrite length_take, length_drop. Qed.

Lemma after_batches_length svc texts m :
  honours_contract svc ->
  length (after_batches svc texts m) = ((m * batch_size) `min` length texts)%nat.
Proof.
  intros Hc. induction m as [|m IH]; [done|].
  rewrite after_batches_S. unfold embed_batch.
  destruct (svc _ _) as [vs|] eqn:E.
  - apply Hc in E. rewrite length_app, IH, E, batch_at_length.
    unfold batch_size. lia.
  - rewrite length_app, length_map, IH, batch_at_length. unfold batch_size. lia.
Qed.

Lemma batch_number j m :
  (m * batch_size <= j < S m * batch_size)%nat ->
  (j / batch_size)%nat = m /\ (j mod batch_size)%nat = (j - m * batch_size)%nat.
Proof.
  unfold batch_size. intros H.
  assert ((j / 100)%nat = m) as Hq.
  { symmetry. apply (Nat.div_unique j 100 m (j - m * 100)); lia. }
  split; [done|].
  pose proof (Nat.div_mod_eq j 100). rewrite Hq in *. lia.
Qed.

Lemma after_batches_lookup svc texts m j :
  honours_contract svc ->
  (j < length (after_batches svc texts m))%nat ->
  after_batches svc texts m !! j = vector_due svc texts j.
Proof.
  intros Hc. induction m as [|m IH]; [simpl; lia|].
  pose proof (after_batches_length svc texts m Hc) as Hm.
  pose proof (after_batches_length svc texts (S m) Hc) as HSm.
  rewrite HSm. intros Hj.
  rewrite after_batches_S.
  destruct (decide (j < length (after_batches svc texts m))%nat) as [Hlt|Hge].
  - unfold embed_batch. destruct (svc _ _); rewrite lookup_app_l by done; by apply IH.
  - assert (m * batch_size <= j < S m * batch_size)%nat as Hrange
      by (unfold batch_size in *; lia).
    destruct (batch_number j m Hrange) as [Hq Hr].
    assert (length (after_batches svc texts m) = m * batch_size)%nat as Hlen
      by (unfold batch_size in *; lia).
    unfold vector_due. rewrite Hq, Hr.
    unfold embed_batch.
    replace (m * batch_size / batch_size)%nat with m
      by (symmetry; apply Nat.div_mul; done).
    destruct (svc m (batch_at texts (m * batch_size))) as [vs|] eqn:E.
    + rewrite lookup_app_r by lia. by rewrite Hlen.
    + rewrite lookup_app_r by lia. rewrite Hlen.
      apply list_lookup_fmap_Some.
      assert (j - m * batch_size < length (batch_at texts (m * batch_size)))%nat as Hb
        by (rewrite batch_at_length; unfold batch_size in *; lia).
      apply lookup_lt_is_Some in Hb as [t Ht]. by exists t.
Qed.

Lemma batch_count_covers n :
  (n <= (n + batch_size - 1) / batch_size * batch_size)%nat.
Proof.
  unfold batch_size.
  pose proof (Nat.div_mod_eq (n + 100 - 1) 100).
  pose proof (Nat.mod_upper_bound (n + 100 - 1) 100). lia.
Qed.

(** Under the contract there is one embedding per text, and the one at
    position [j] is the vector due to [j]. *)
Lemma batch_embeddings_length svc texts :
  honours_contract svc ->
  length (batch_embeddings svc texts) = length texts.
Proof.
  intros Hc. unfold batch_embeddings, batch_starts.
  fold (after_batches svc texts ((length texts + batch_size - 1) / batch_size)).
  rewrite after_batches_length by done.
  pose proof (batch_count_covers (length texts)). lia.
Qed.

Lemma batch_embeddings_lookup svc texts j :
  honours_contract svc -> (j < length texts)%nat ->
  batch_embeddings svc texts !! j = vector_due svc texts j.
Proof.
  intros Hc Hj. pose proof (batch_embeddings_length svc texts Hc) as Hlen.
  unfold batch_embeddings, batch_starts in *.
  fold (after_batches svc texts ((length texts + batch_size - 1) / batch_size)) in *.
  apply after_batches_lookup; [done|lia].
Qed.
End embedder_facts.


(** C10. [create_embeddings] returns the very list that it was given, it
    neither creates nor removes an object, and in every object every field
    other than [embedding] (id, text, url, title, chunk_index,
    total_chunks, timestamp, word_count) keeps its value. *)
Theorem create_embeddings_frame (svc : embed_service) (sigma : store)
    (chunks : list nat) :
  (forall out, (create_embeddings svc sigma chunks).1 = Returns out -> out = chunks)
  /\ dom (create_embeddings svc sigma chunks).2 = dom sigma
  /\ forall (l : nat) (key : string),
       key <> "embedding"%string ->
       field (create_embeddings svc sigma chunks).2 l key = field sigma l key.
Proof.
  unfold create_embeddings.
  destruct (chunk_texts sigma chunks) as [texts|]; simpl.
  - split; [by intros out [= <-]|]. split.
    + apply write_embeddings_dom.
    + intros l key Hkey. by apply write_embeddings_field.
  - done.
Qed.

(** Every chunk has a text: then the function returns. *)
Lemma create_embeddings_returns (svc : embed_service) (sigma : store)
    (chunks : list nat) :
  Forall (fun l => is_Some (field sigma l "text")) chunks ->
  (create_embeddings svc sigma chunks).1 = Returns chunks.
Proof.
  intros H. destruct (chunk_texts_returns sigma chunks H) as [texts Ht].
  unfold create_embeddings. by rewrite Ht.
Qed.

(** C2, counterexample. One chunk object occurs 101 times in the list;
    the call for the first batch fails and the call for the second batch
    returns one vector, as the contract asks. The object ends with the
    vector of the second batch, so the chunks at the positions of the
    failed batch do not carry the zero vector. *)
Lemma create_embeddings_shared_chunk :
  let sigma : store := {[ 7%nat := {[ "text"%string := VStr (lit "x") ]} ]} in
  let chunks := replicate 101 7%nat in
  let svc : embed_service :=
    fun k batch => if (k =? 0)%nat then None
                   else Some (map (fun _ => [1%float]) batch) in
  honours_contract svc
  /\ svc 0%nat (batch_at (replicate 101 (VStr (lit "x"))) 0) = None
  /\ chunks !! 0%nat = Some 7%nat
  /\ (create_embeddings svc sigma chunks).1 = Returns chunks
  /\ field (create_embeddings svc sigma chunks).2 7%nat "embedding"
     = Some (VVec [1%float])
  /\ field (create_embeddings svc sigma chunks).2 7%nat "embedding"
     <> Some (VVec zero_vector).
Proof.
  intros sigma chunks svc.
  assert (field (create_embeddings svc sigma chunks).2 7%nat "embedding"
          = Some (VVec [1%float])) as Hf by (vm_compute; reflexivity).
  split; [|split; [reflexivity|split; [reflexivity|split; [|split]]]].
  - intros k batch vs. unfold svc. destruct (k =? 0)%nat; [done|].
    intros [= <-]. apply length_map.
  - vm_compute. reflexivity.
  - exact Hf.
  - rewrite Hf. discriminate.
Qed.

(** C2 (amended to lists of distinct chunk objects). Let the service
    return one vector per text on every successful call, let every chunk
    have a text, and let no chunk object occur twice in the list. Then
    [create_embeddings] returns the list that it was given, so length and
    order are the input's, and the chunk at every position [j] carries an
    embedding: the zero vector, which has 1536 components, when the call
    for batch [j / 100] failed, and otherwise the vector at place
    [j mod 100] of the response for that batch. *)
Theorem create_embeddings_per_batch (svc : embed_service) (sigma : store)
    (chunks : list nat) (texts : list value) :
  honours_contract svc ->
  NoDup chunks ->
  chunk_texts sigma chunks = Returns texts ->
  (create_embeddings svc sigma chunks).1 = Returns chunks
  /\ length zero_vector = 1536%nat
  /\ forall (j l : nat), chunks !! j = Some l ->
       match svc (j / batch_size)%nat
                 (batch_at texts (j / batch_size * batch_size)) with
       | None =>
           field (create_embeddings svc sigma chunks).2 l "embedding"
           = Some (VVec zero_vector)
       | Some vs =>
           exists e, vs !! (j mod batch_size)%nat = Some e
             /\ field (create_embeddings svc sigma chunks).2 l "embedding"
                = Some (VVec e)
       end.
Proof.
  intros Hc Hnd Et. unfold create_embeddings. rewrite Et. simpl.
  split; [done|]. split; [reflexivity|]. intros j l Hl.
  destruct (chunk_texts_spec _ _ _ Et) as [Hlen Hall].
  assert (j < length texts)%nat as Hj
    by (rewrite Hlen; by eapply lookup_lt_Some).
  pose proof (batch_embeddings_lookup svc texts j Hc Hj) as Hdue.
  assert (is_Some (sigma !! l)) as Hs.
  { rewrite Forall_forall in Hall. apply Hall. by eapply list_elem_of_lookup_2. }
  assert (is_Some (batch_embeddings svc texts !! j)) as [e He].
  { apply lookup_lt_is_Some. by rewrite batch_embeddings_length. }
  pose proof (write_embeddings_at sigma chunks _ j l e Hnd Hl He Hs) as Hw.
  rewrite He in Hdue. unfold vector_due in Hdue.
  destruct (svc _ _) as [vs|].
  - exists e. by split.
  - by injection Hdue as <-.
Qed.

Lemma constant_service_contract : honours_contract constant_service.
Proof. intros k batch vs [= <-]. apply length_map. Qed.

Lemma create_embeddings_per_batch_witness :
  let texts := [VStr (lit "first"); VStr (lit "second")] in
  let out := create_embeddings constant_service sample_store [0%nat; 1%nat] in
  field out.2 1%nat "embedding" = Some (VVec [1%float])
  /\ out.1 = Returns [0%nat; 1%nat]
  /\ length zero_vector = 1536%nat
  /\ forall (j l : nat), [0%nat; 1%nat] !! j = Some l ->
       match constant_service (j / batch_size)%nat
               (batch_at texts (j / batch_size * batch_size)) with
       | None => field out.2 l "embedding" = Some (VVec zero_vector)
       | Some vs =>
           exists e, vs !! (j mod batch_size)%nat = Some e
                     /\ field out.2 l "embedding" = Some (VVec e)
       end.
Proof.
  intros texts out. split; [reflexivity|].
  apply (create_embeddings_per_batch constant_service sample_store
           [0%nat; 1%nat] texts).
  - exact constant_service_contract.
  - apply (bool_decide_unpack _). vm_compute. exact I.
  - vm_compute. reflexivity.
Defined.

Lemma create_embeddings_frame_witness :
  let out := create_embeddings constant_service sample_store [0%nat; 1%nat] in
  field out.2 1%nat "chunk_index" = Some (VInt 1)
  /\ (forall l, out.1 = Returns l -> l = [0%nat; 1%nat])
  /\ dom out.2 = dom sample_store
  /\ forall (l : nat) (key : string),
       key <> "embedding"%string -> field out.2 l key = field sample_store l key.
Proof.
  intros out. split; [reflexivity|].
  apply (create_embeddings_frame constant_service sample_store [0%nat; 1%nat]).
Defined.


(* ===================================================================== *)
(** ** The processed-data file *)
(* ===================================================================== *)


(** A file that was never written loads as the empty list, and so does a
    file that does not parse. *)
Lemma load_documents_missing {A} (J : json_codec (list A)) (fs : filesystem) path :
  fs !! path = None -> load_documents J fs path = [].
Proof. unfold load_documents. by intros ->. Qed.

Lemma load_documents_invalid {A} (J : json_codec (list A)) (fs : filesystem)
    path content :
  fs !! path = Some content -> json_load J content = None ->
  load_documents J fs path = [].
Proof. unfold load_documents. by intros -> ->. Qed.


(* ===================================================================== *)
(** ** The vector-index client *)
(* ===================================================================== *)

Section vector_store_facts.
Implicit Types (w : world) (vs : vector_store).

Lemma connect_to_index_sets w vs vs' :
  connect_to_index w vs = (Returns tt, vs') -> is_Some (index vs').
Proof.
  unfold connect_to_index.
  destruct (list_index_names w ≫= _) as [h|e]; intros [= <-]; by eexists.
Qed.

Lemma ensure_index_reachable w vs :
  reachable w vs ->
  exists vs', ensure_index w vs = (Returns tt, vs') /\ is_Some (index vs').
Proof.
  unfold ensure_index. intros [[h Hh] | Hc].
  - rewrite Hh. exists vs. rewrite Hh. split; [done|by eexists].
  - destruct (index vs) as [h|] eqn:Hh.
    + exists vs. rewrite Hh. split; [done|by eexists].
    + destruct (connect_to_index w vs) as [r vs'] eqn:E. simpl in Hc. subst r.
      exists vs'. split; [done|]. by eapply connect_to_index_sets.
Qed.

(** A failure of the lazy connection leaves the store as it was and is
    raised again. *)
Lemma ensure_index_failure w vs e :
  index vs = None -> (connect_to_index w vs).1 = Raises e ->
  ensure_index w vs = (Raises e, vs).
Proof.
  unfold ensure_index, connect_to_index. intros -> H.
  destruct (list_index_names w ≫= _) as [h|e']; simpl in *; congruence.
Qed.

Lemma get_index_stats_failure w vs e :
  index vs = None -> (connect_to_index w vs).1 = Raises e ->
  get_index_stats w vs = (Raises e, vs).
Proof.
  intros Hi Hc. unfold get_index_stats. by rewrite (ensure_index_failure w vs e).
Qed.

Lemma search_failure w vs query top_k e :
  index vs = None -> (connect_to_index w vs).1 = Raises e ->
  search w vs query top_k = (Raises e, vs).
Proof.
  intros Hi Hc. unfold search. by rewrite (ensure_index_failure w vs e).
Qed.

Lemma search_reachable w vs query top_k :
  reachable w vs ->
  exists docs vs',
    search w vs query top_k = (Returns docs, vs')
    /\ ensure_index w vs = (Returns tt, vs')
    /\ docs = match search_attempt w vs' query
                      (default settings.TOP_K_RESULTS top_k) with
              | Returns results => results
              | Raises _ => []
              end.
Proof.
  intros Hr. destruct (ensure_index_reachable w vs Hr) as (vs' & He & _).
  unfold search. rewrite He.
  destruct (search_attempt w vs' query _) as [results|e] eqn:Es;
    eexists _, vs'; (split; [reflexivity|split; [done|]]); by rewrite Es.
Qed.
End vector_store_facts.

(** C8, counterexample. The store holds no handle and the listing of the
    indexes fails, or the index is not among those listed: the exception
    of [connect_to_index] leaves [get_index_stats]. *)
Lemma get_index_stats_raises :
  get_index_stats offline_world fresh_store
    = (Raises (RemoteError "connection refused"), fresh_store)
  /\ get_index_stats empty_world fresh_store
    = (Raises (ValueError "Index 'mcp-docs' does not exist"), fresh_store).
Proof. split; reflexivity. Qed.

(** C8 (amended to a store that can reach its index). When the store
    holds a handle, or holds none and the connection succeeds,
    [get_index_stats] returns: the statistics when the call for them
    returns, and [None] when that call raises. *)
Theorem get_index_stats_returns (w : world) (vs : vector_store) :
  reachable w vs ->
  exists (r : option index_stats) (vs' : vector_store) (h : handle),
    get_index_stats w vs = (Returns r, vs')
    /\ index vs' = Some h
    /\ r = match describe_index_stats w h with
           | Returns stats => Some stats
           | Raises _ => None
           end.
Proof.
  intros Hr. destruct (ensure_index_reachable w vs Hr) as (vs' & He & [h Hh]).
  unfold get_index_stats. rewrite He. unfold with_index. rewrite Hh.
  destruct (describe_index_stats w h) as [stats|e] eqn:Ed;
    eexists _, vs', h; (split; [reflexivity|split; [done|]]); by rewrite Ed.
Qed.

Lemma get_index_stats_returns_witness :
  exists (r : option index_stats) (vs' : vector_store) (h : handle),
    get_index_stats flaky_world fresh_store = (Returns r, vs')
    /\ index vs' = Some h
    /\ r = match describe_index_stats flaky_world h with
           | Returns stats => Some stats
           | Raises _ => None
           end.
Proof.
  apply (get_index_stats_returns flaky_world fresh_store).
  right. vm_compute. reflexivity.
Defined.

(* ===================================================================== *)
(** ** The question-answering pipeline *)
(* ===================================================================== *)

Lemma generate_answer_failure (w : world) (query context : str) (e : exn) :
  generation_attempt w query context = Raises e ->
  generate_answer w query context = apology.
Proof. unfold generate_answer. by intros ->. Qed.

(** C1, counterexample. First, with no handle and a failing listing of
    the indexes, the exception of [connect_to_index] leaves [ask]. Second,
    with a retrieval that finds a document and a text generation that
    fails, the answer is the apology and [context_used] is true. *)
Lemma ask_raises_and_apology_with_context :
  ask offline_world fresh_store (lit "What is MCP?") true
    = (Raises (RemoteError "connection refused"), fresh_store)
  /\ generation_attempt flaky_world (lit "What is MCP?")
       (format_context flaky_world [result_of_match sample_match])
     = Raises (RemoteError "rate limit")
  /\ exists r vs',
       ask flaky_world fresh_store (lit "What is MCP?") true = (Returns r, vs')
       /\ r_answer r = apology
       /\ r_context_used r = true.
Proof.
  split; [reflexivity|]. split; [reflexivity|].
  eexists _, _. split; [reflexivity|]. split; reflexivity.
Qed.

(** C1 (amended to a store that can reach its index, and to the value
    that [context_used] has). When the vector store holds a handle, or
    holds none and the connection succeeds, [ask] returns a response for
    every query. Its answer is the apology string whenever the text
    generation fails; [context_used] tells whether the retrieval found a
    document, whatever the generation did; and it is false when the search
    fails. *)
Theorem ask_returns (w : world) (vs : vector_store) (query : str)
    (include_sources : bool) :
  reachable w vs ->
  exists (r : rag_response) (vs' : vector_store) (docs : list search_result),
    ask w vs query include_sources = (Returns r, vs')
    /\ search w vs query (Some settings.TOP_K_RESULTS) = (Returns docs, vs')
    /\ r_query r = query
    /\ r_context_used r = bool_decide (docs <> [])
    /\ (forall e, generation_attempt w query (format_context w docs) = Raises e ->
                  r_answer r = apology)
    /\ (forall e, search_attempt w vs' query settings.TOP_K_RESULTS = Raises e ->
                  r_context_used r = false).
Proof.
  intros Hr.
  destruct (search_reachable w vs query (Some settings.TOP_K_RESULTS) Hr)
    as (docs & vs' & Hs & _ & Hd).
  unfold ask, retrieve_context. simpl default in *. rewrite Hs.
  eexists _, vs', docs. split; [reflexivity|]. split; [done|]. simpl.
  split; [done|]. split; [|split].
  - apply bool_decide_ext. destruct docs; simpl; split; intros; (lia || done).
  - intros e He. by eapply generate_answer_failure.
  - intros e He. rewrite He in Hd. by subst docs.
Qed.

Lemma ask_returns_witness :
  exists (r : rag_response) (vs' : vector_store) (docs : list search_result),
    ask flaky_world fresh_store (lit "What is MCP?") true = (Returns r, vs')
    /\ search flaky_world fresh_store (lit "What is MCP?")
         (Some settings.TOP_K_RESULTS) = (Returns docs, vs')
    /\ r_query r = lit "What is MCP?"
    /\ r_context_used r = bool_decide (docs <> [])
    /\ (forall e, generation_attempt flaky_world (lit "What is MCP?")
                    (format_context flaky_world docs) = Raises e ->
                  r_answer r = apology)
    /\ (forall e, search_attempt flaky_world vs' (lit "What is MCP?")
                    settings.TOP_K_RESULTS = Raises e ->
                  r_context_used r = false).
Proof.
  apply (ask_returns flaky_world fresh_store (lit "What is MCP?") true).
  right. vm_compute. reflexivity.
Defined.


(* ===================================================================== *)
(** ** The chunker: what the chunks are made of *)
(* ===================================================================== *)

Section chunk_content.
Implicit Types (s t text chunk : str) (chunks : list str).

Lemma lstrip_all_space s : forallb is_space s = true -> lstrip s = [].
Proof.
  induction s as [|c r IH]; simpl; [done|].
  destruct (is_space c); simpl; [exact IH|done].
Qed.

(** [strip] removes a run of whitespace at each end, and nothing else. *)
Lemma strip_decompose s :
  exists w1 w2, s = w1 ++ strip s ++ w2
    /\ forallb is_space w1 = true /\ forallb is_space w2 = true.
Proof.
  destruct (lstrip_suffix s) as (w1 & H1 & Hw1).
  destruct (lstrip_suffix (rev (lstrip s))) as (w2 & H2 & Hw2).
  exists w1, (rev w2). unfold strip, rstrip. split; [|split; [done|]].
  - apply (f_equal (@rev ascii)) in H2.
    rewrite rev_involutive, rev_app_distr in H2. by rewrite <- H2.
  - rewrite forallb_forall in *. intros c Hc. apply Hw2. by apply in_rev.
Qed.

Lemma forallb_space_lookup (w : str) i c :
  forallb is_space w = true -> w !! i = Some c -> is_space c = true.
Proof.
  intros Hw Hi. rewrite forallb_forall in Hw. apply Hw.
  apply list_elem_of_In. by eapply list_elem_of_lookup_2.
Qed.

(** A character that is not whitespace survives [strip], at its place. *)
Lemma strip_keeps s i c :
  s !! i = Some c -> is_space c = false ->
  exists w1 w2, s = w1 ++ strip s ++ w2
    /\ (length w1 <= i < length w1 + length (strip s))%nat.
Proof.
  intros Hi Hc. destruct (strip_decompose s) as (w1 & w2 & Hs & Hw1 & Hw2).
  exists w1, w2. split; [done|].
  rewrite Hs in Hi.
  destruct (decide (i < length w1)%nat) as [Hlt|Hge].
  { rewrite lookup_app_l in Hi by done.
    pose proof (forallb_space_lookup _ _ _ Hw1 Hi). congruence. }
  rewrite lookup_app_r in Hi by lia.
  destruct (decide (i - length w1 < length (strip s))%nat) as [Hlt|Hge'];
    [lia|].
  rewrite lookup_app_r in Hi by lia.
  pose proof (forallb_space_lookup _ _ _ Hw2 Hi). congruence.
Qed.

(** A slice between two positions of the text. *)
Lemma py_slice_plain text (a b : Z) :
  0 <= a <= b -> a <= len text ->
  py_slice text a b
  = take (Z.to_nat (Z.min b (len text)) - Z.to_nat a) (drop (Z.to_nat a) text).
Proof.
  intros Hab Ha. unfold py_slice.
  rewrite (norm_index_id _ a) by lia.
  unfold norm_index. destruct (b <? 0) eqn:E; [lia|].
  f_equal. lia.
Qed.

(** The slice is a contiguous part of the text, whatever the bounds. *)
Lemma py_slice_occurs text (a b : Z) :
  occurs_at (py_slice text a b) text
    (Z.to_nat (norm_index (len text) a) `min` length text).
Proof.
  unfold py_slice. set (m := Z.to_nat (norm_index (len text) a)).
  set (n := Z.to_nat _).
  exists (take m text), (drop n (drop m text)). split.
  - by rewrite take_drop, take_drop.
  - by rewrite length_take.
Qed.

Lemma occurs_at_strip s text at_ :
  occurs_at s text at_ -> exists at', occurs_at (strip s) text at'.
Proof.
  intros (p & q & -> & _).
  destruct (strip_decompose s) as (w1 & w2 & Hs & _).
  exists (length (p ++ w1)), (p ++ w1), (w2 ++ q). split; [|done].
  rewrite Hs at 1. by rewrite <- !app_assoc.
Qed.

Lemma chunk_loop_substrings fuel text chunk_size overlap start chunks out :
  Forall (fun c => substring_of c text) chunks ->
  chunk_loop fuel text chunk_size overlap start chunks = Some out ->
  Forall (fun c => substring_of c text) out.
Proof.
  revert start chunks.
  induction fuel as [|fuel IH]; intros start chunks Hall; simpl; [done|].
  destruct (start <? len text); [|by intros [= <-]].
  set (chunk := strip (py_slice text start (window_end text chunk_size start))).
  assert (Forall (fun c => substring_of c text)
            (if truthy chunk then chunks ++ [chunk] else chunks)) as Hall'.
  { destruct (truthy chunk); [|done].
    apply Forall_app. split; [done|]. apply Forall_singleton.
    eapply occurs_at_strip, py_slice_occurs. }
  destruct (len text <=? window_end text chunk_size start - overlap).
  - by intros [= <-].
  - by apply IH.
Qed.

(** The loop only appends. *)
Lemma chunk_loop_extends fuel text chunk_size overlap start chunks out :
  chunk_loop fuel text chunk_size overlap start chunks = Some out ->
  exists more, out = chunks ++ more.
Proof.
  revert start chunks.
  induction fuel as [|fuel IH]; intros start chunks; simpl; [done|].
  destruct (start <? len text); [|intros [= <-]; exists []; by rewrite app_nil_r].
  set (chunk := strip (py_slice text start (window_end text chunk_size start))).
  assert (exists more, (if truthy chunk then chunks ++ [chunk] else chunks)
                       = chunks ++ more) as [more Hmore].
  { destruct (truthy chunk); [by exists [chunk]|exists []; by rewrite app_nil_r]. }
  rewrite Hmore.
  destruct (len text <=? window_end text chunk_size start - overlap).
  - intros [= <-]. by exists more.
  - intros H. apply IH in H as [more' ->]. exists (more ++ more').
    by rewrite app_assoc.
Qed.

Lemma covered_mono text chunks chunks' i :
  chunks ⊆ chunks' -> covered text chunks i -> covered text chunks' i.
Proof. intros Hsub (chunk & at_ & Hin & H). exists chunk, at_. split; [auto|done]. Qed.

(** The characters of a window that are not whitespace are in its
    chunk. *)
Lemma window_covers text (start e : Z) i c :
  0 <= start -> start <= Z.of_nat i < e ->
  text !! i = Some c -> is_space c = false ->
  let chunk := strip (py_slice text start e) in
  truthy chunk = true /\ covered text [chunk] i.
Proof.
  intros Hs Hi Hc Hsp chunk.
  assert (i < length text)%nat as Hlen by (by eapply lookup_lt_Some).
  assert (py_slice text start e !! (i - Z.to_nat start)%nat = Some c) as Hsl.
  { rewrite py_slice_plain by (unfold len; lia).
    rewrite lookup_take_lt by (unfold len; lia).
    rewrite lookup_drop. rewrite <- Hc. f_equal. lia. }
  destruct (strip_keeps _ _ _ Hsl Hsp) as (w1 & w2 & Hdec & Hrange).
  fold chunk in Hdec, Hrange.
  split; [apply truthy_nonempty; intros E; rewrite E in Hrange; simpl in *; lia|].
  destruct (py_slice_occurs text start e) as (p & q & Htext & Hp).
  rewrite (norm_index_id _ start) in Hp by (unfold len; lia).
  exists chunk, (length (p ++ w1)). split; [set_solver|]. split.
  - exists (p ++ w1), (w2 ++ q). split; [|done].
    rewrite Htext at 1. rewrite Hdec at 1. by rewrite <- !app_assoc.
  - rewrite length_app. lia.
Qed.

(** The loop invariant of the coverage: every character before [upto]
    that is not whitespace lies in a chunk, and the next window starts
    at or before [upto]. *)
Lemma chunk_loop_covers fuel text chunk_size overlap start chunks out upto :
  0 < chunk_size -> 0 <= overlap <= chunk_size / 2 ->
  0 <= start <= upto ->
  (forall i c, Z.of_nat i < upto -> text !! i = Some c -> is_space c = false ->
               covered text chunks i) ->
  chunk_loop fuel text chunk_size overlap start chunks = Some out ->
  forall i c, text !! i = Some c -> is_space c = false -> covered text out i.
Proof.
  intros Hcs Hov. revert start chunks upto.
  induction fuel as [|fuel IH]; intros start chunks upto Hstart Hinv; simpl; [done|].
  destruct (start <? len text) eqn:Elt.
  2:{ intros [= <-] i c Hi Hc. apply (Hinv i c); [|done..].
      apply lookup_lt_Some in Hi. unfold len in *. lia. }
  pose proof (window_end_lower text chunk_size start Hcs) as Hend.
  set (e := window_end text chunk_size start) in *.
  set (chunk := strip (py_slice text start e)).
  set (chunks' := if truthy chunk then chunks ++ [chunk] else chunks).
  assert (forall i c, Z.of_nat i < Z.max upto e -> text !! i = Some c ->
                      is_space c = false -> covered text chunks' i) as Hinv'.
  { intros i c Hi Hc Hsp.
    destruct (decide (Z.of_nat i < upto)) as [Hlt|Hge].
    - eapply covered_mono; [|by eapply Hinv].
      unfold chunks'. destruct (truthy chunk); set_solver.
    - destruct (window_covers text start e i c) as [Ht Hcov]; [lia|lia|done..|].
      fold chunk in Ht, Hcov. unfold chunks'. rewrite Ht.
      eapply covered_mono; [|exact Hcov]. set_solver. }
  destruct (len text <=? e - overlap) eqn:Eout.
  - intros [= <-] i c Hi Hc. apply (Hinv' i c); [|done..].
    apply lookup_lt_Some in Hi. unfold len in *. lia.
  - intros Hloop. eapply (IH (e - overlap) chunks' (Z.max upto e)); [lia|done|done].
Qed.
End chunk_content.

(** Every chunk that [chunk_text] returns is a contiguous part of the
    text: chunking neither invents nor rearranges characters. *)
Theorem chunk_text_substrings (fuel : nat) (text : str)
    (chunk_size overlap : option Z) (chunks : list str) :
  chunk_text fuel text chunk_size overlap = Some chunks ->
  Forall (fun chunk => substring_of chunk text) chunks.
Proof.
  unfold chunk_text. destruct (len text <=? _).
  - intros [= <-]. apply Forall_singleton. exists O, [], []. by rewrite app_nil_r.
  - by apply chunk_loop_substrings.
Qed.

Lemma chunk_text_substrings_witness :
  let text := lit "aaaa bbbb cccc. dddd eeee ffff" in
  exists chunks,
    chunk_text (enough_fuel text) text (Some 10) (Some 2) = Some chunks
    /\ length chunks = 5%nat
    /\ Forall (fun chunk => substring_of chunk text) chunks.
Proof.
  intros text. eexists. split; [vm_compute; reflexivity|]. split; [reflexivity|].
  apply (chunk_text_substrings (enough_fuel text) text (Some 10) (Some 2)).
  vm_compute. reflexivity.
Defined.

(** With an overlap between zero and half the chunk size, no character
    other than whitespace is lost: every such character of the text lies
    within an occurrence of one of the returned chunks. *)
Theorem chunk_text_covers (fuel : nat) (text : str) (chunk_size overlap : option Z)
    (chunks : list str) :
  let cs := default settings.CHUNK_SIZE chunk_size in
  let ov := default settings.CHUNK_OVERLAP overlap in
  0 < cs -> 0 <= ov <= cs / 2 ->
  chunk_text fuel text chunk_size overlap = Some chunks ->
  forall i c, text !! i = Some c -> is_space c = false -> covered text chunks i.
Proof.
  intros cs ov Hcs Hov. unfold chunk_text. fold cs ov.
  destruct (len text <=? cs).
  - intros [= <-] i c Hi Hc. exists text, O. split; [set_solver|]. split.
    + exists [], []. by rewrite app_nil_r.
    + apply lookup_lt_Some in Hi. lia.
  - intros Hloop. eapply (chunk_loop_covers _ _ _ _ 0 [] chunks 0); [done..|lia| |done].
    intros i c Hi. lia.
Qed.

Lemma chunk_text_covers_witness :
  let text := lit "aaaa bbbb cccc. dddd eeee ffff" in
  exists chunks,
    chunk_text (enough_fuel text) text (Some 10) (Some 2) = Some chunks
    /\ forall i c, text !! i = Some c -> is_space c = false -> covered text chunks i.
Proof.
  intros text. eexists. split; [vm_compute; reflexivity|].
  apply (chunk_text_covers (enough_fuel text) text (Some 10) (Some 2));
    [reflexivity | split; vm_compute; discriminate | vm_compute; reflexivity].
Defined.

(** With a positive chunk size and an overlap of at most half of it,
    [chunk_text] terminates: the loop ends within one iteration per
    character of the text, and the chunks are the same however many more
    iterations are allowed. *)
Theorem chunk_text_ends (text : str) (chunk_size overlap : option Z) :
  let cs := default settings.CHUNK_SIZE chunk_size in
  let ov := default settings.CHUNK_OVERLAP overlap in
  0 < cs -> ov <= cs / 2 ->
  exists chunks,
    forall fuel, (enough_fuel text <= fuel)%nat ->
                 chunk_text fuel text chunk_size overlap = Some chunks.
Proof.
  intros cs ov Hcs Hov. unfold chunk_text. fold cs ov.
  destruct (len text <=? cs); [by eexists|].
  destruct (chunk_loop_terminates (enough_fuel text) text cs ov 0 [] Hcs Hov)
    as [chunks Hchunks]; [unfold enough_fuel, len; lia|].
  exists chunks. intros fuel Hfuel. by eapply chunk_loop_fuel_mono.
Qed.

Lemma chunk_text_ends_witness :
  let text := lit "aaaa bbbb cccc. dddd eeee ffff" in
  exists chunks,
    forall fuel, (enough_fuel text <= fuel)%nat ->
                 chunk_text fuel text (Some 10) (Some 5) = Some chunks.
Proof.
  intros text.
  apply (chunk_text_ends text (Some 10) (Some 5));
    [reflexivity | vm_compute; discriminate].
Defined.


(* ===================================================================== *)
(** ** Text normalisation: what is kept *)
(* ===================================================================== *)

Section clean_text_content.
Implicit Types (s : str) (c : ascii).

Local Arguments is_word : simpl never.
Local Arguments is_space : simpl never.
Local Arguments is_terminal : simpl never.
Local Arguments allowed : simpl never.

Lemma is_word_not_space c : is_word c = true -> is_space c = false.
Proof.
  destruct c as [b0 b1 b2 b3 b4 b5 b6 b7].
  destruct b0, b1, b2, b3, b4, b5, b6, b7; vm_compute; congruence.
Qed.

Lemma is_word_not_terminal c : is_word c = true -> is_terminal c = false.
Proof.
  destruct c as [b0 b1 b2 b3 b4 b5 b6 b7].
  destruct b0, b1, b2, b3, b4, b5, b6, b7; vm_compute; congruence.
Qed.

Lemma is_word_allowed c : is_word c = true -> allowed c = true.
Proof. unfold allowed. by intros ->. Qed.

(** *** Lengths *)

Lemma sub_whitespace_length in_run s :
  (length (sub_whitespace in_run s) <= length s)%nat.
Proof.
  revert in_run. induction s as [|c r IH]; intros in_run; simpl; [lia|].
  pose proof (IH true). pose proof (IH false).
  destruct (is_space c); [destruct in_run|]; simpl; lia.
Qed.

Lemma sub_punct_length s : (length (sub_punct s) <= length s)%nat.
Proof.
  induction s as [|c r IH]; [done|]. destruct r as [|d r']; [done|].
  change (sub_punct (c :: d :: r'))
    with (if is_terminal c && is_terminal d then sub_punct (d :: r')
          else c :: sub_punct (d :: r')).
  destruct (is_terminal c && is_terminal d); simpl in *; lia.
Qed.

(** *** The whitespace that remains *)

Lemma sub_whitespace_spaces in_run s :
  Forall (fun c => is_space c = true -> c = " "%char) (sub_whitespace in_run s).
Proof.
  revert in_run. induction s as [|c r IH]; intros in_run; simpl; [done|].
  destruct (is_space c) eqn:E; [destruct in_run|]; try apply IH.
  - constructor; [done|apply IH].
  - constructor; [congruence|apply IH].
Qed.

Lemma sub_special_spaces s :
  Forall (fun c => is_space c = true -> c = " "%char) s ->
  Forall (fun c => is_space c = true -> c = " "%char) (sub_special s).
Proof.
  unfold sub_special. intros H. apply Forall_fmap.
  eapply Forall_impl; [exact H|]. intros c Hc. simpl.
  by destruct (allowed c).
Qed.

(** *** The word characters *)

Lemma word_filter_sub_whitespace in_run s :
  List.filter is_word (sub_whitespace in_run s) = List.filter is_word s.
Proof.
  revert in_run. induction s as [|c r IH]; intros in_run; simpl; [done|].
  destruct (is_word c) eqn:Ew.
  - rewrite (is_word_not_space c Ew). simpl. by rewrite Ew, IH.
  - destruct (is_space c); [destruct in_run|]; simpl; rewrite ?Ew; apply IH.
Qed.

Lemma word_filter_sub_special s :
  List.filter is_word (sub_special s) = List.filter is_word s.
Proof.
  induction s as [|c r IH]; [reflexivity|].
  unfold sub_special in *. cbn [map List.filter].
  destruct (is_word c) eqn:Ew.
  - rewrite (is_word_allowed c Ew), Ew. by f_equal.
  - destruct (allowed c) eqn:Ea.
    + rewrite Ew. exact IH.
    + change (is_word " "%char) with false. cbv iota. exact IH.
Qed.

Lemma word_filter_sub_punct s :
  List.filter is_word (sub_punct s) = List.filter is_word s.
Proof.
  induction s as [|c r IH]; [done|]. destruct r as [|d r']; [done|].
  change (sub_punct (c :: d :: r'))
    with (if is_terminal c && is_terminal d then sub_punct (d :: r')
          else c :: sub_punct (d :: r')).
  change (List.filter is_word (c :: d :: r'))
    with (if is_word c then c :: List.filter is_word (d :: r')
          else List.filter is_word (d :: r')).
  destruct (is_word c) eqn:Ew.
  - rewrite (is_word_not_terminal c Ew). cbn [andb List.filter].
    rewrite Ew. by f_equal.
  - destruct (is_terminal c && is_terminal d); [exact IH|].
    cbn [List.filter]. by rewrite Ew.
Qed.

Lemma word_filter_all_space (w : str) :
  forallb is_space w = true -> List.filter is_word w = [].
Proof.
  induction w as [|c r IH]; [done|]. cbn [forallb List.filter].
  intros H. apply andb_prop in H as [Hc Hr].
  destruct (is_word c) eqn:Ew; [|auto].
  apply is_word_not_space in Ew. congruence.
Qed.

Lemma word_filter_strip s :
  List.filter is_word (strip s) = List.filter is_word s.
Proof.
  destruct (strip_decompose s) as (w1 & w2 & Hs & Hw1 & Hw2).
  rewrite Hs at 2. rewrite !List.filter_app.
  rewrite (word_filter_all_space w1 Hw1), (word_filter_all_space w2 Hw2).
  by rewrite app_nil_r.
Qed.
End clean_text_content.

(** The only whitespace character that [clean_text] leaves is the space:
    tabs, line breaks and the other whitespace characters never survive. *)
Theorem clean_text_only_spaces (text : str) :
  Forall (fun c => is_space c = true -> c = " "%char) (clean_text text).
Proof.
  unfold clean_text.
  apply Forall_strip, Forall_sub_punct, sub_special_spaces, sub_whitespace_spaces.
Qed.

(** [clean_text] never makes a text longer. *)
Theorem clean_text_length (text : str) :
  (length (clean_text text) <= length text)%nat.
Proof.
  unfold clean_text.
  etrans; [apply strip_length|]. etrans; [apply sub_punct_length|].
  unfold sub_special. rewrite length_map. apply sub_whitespace_length.
Qed.

(** [clean_text] keeps every word character (letter, digit, underscore),
    in the order of the text: it removes or replaces other characters
    only. *)
Theorem clean_text_keeps_words (text : str) :
  List.filter is_word (clean_text text) = List.filter is_word text.
Proof.
  unfold clean_text.
  by rewrite word_filter_strip, word_filter_sub_punct, word_filter_sub_special,
    word_filter_sub_whitespace.
Qed.


(* ===================================================================== *)
(** ** Chunk metadata: skipped documents, missing urls, ids *)
(* ===================================================================== *)

Section process_documents_more.
Implicit Types (doc : document) (docs : list document) (block out : list dict).

(** A text that is empty or starts with a character that is not
    whitespace, as [clean_text] returns it, gives at least one chunk. *)
Lemma chunk_text_default_nonempty (t : str) :
  match t with [] => True | c :: _ => is_space c = false end ->
  chunk_text_default t <> [].
Proof.
  intros Hhead. pose proof (chunk_text_default_spec t) as Hspec.
  remember (chunk_text_default t) as chunks. clear Heqchunks.
  unfold chunk_text in Hspec. simpl default in Hspec.
  destruct (len t <=? settings.CHUNK_SIZE) eqn:E; [by injection Hspec as <-|].
  destruct t as [|c r]; [done|]. clear E.
  assert (covered (c :: r) chunks 0) as (chunk & at_ & Hin & _).
  { apply (chunk_loop_covers (enough_fuel (c :: r)) (c :: r)
             settings.CHUNK_SIZE settings.CHUNK_OVERLAP 0 [] chunks 0)
      with (c := c); [reflexivity | by split | lia | | exact Hspec | reflexivity
                     | exact Hhead].
    intros i c' Hi. lia. }
  intros ->. by apply not_elem_of_nil in Hin.
Qed.

Lemma chunk_text_default_bounded (t chunk : str) :
  chunk ∈ chunk_text_default t ->
  len chunk <= settings.CHUNK_SIZE /\ substring_of chunk t.
Proof.
  intros Hin. pose proof (chunk_text_default_spec t) as Hspec.
  remember (chunk_text_default t) as chunks. clear Heqchunks.
  unfold chunk_text in Hspec. simpl default in Hspec.
  destruct (len t <=? settings.CHUNK_SIZE) eqn:E.
  - injection Hspec as <-. apply list_elem_of_singleton in Hin as ->.
    split; [lia|]. exists O, [], []. by rewrite app_nil_r.
  - assert (0 < settings.CHUNK_SIZE) as Hcs by reflexivity.
    pose proof (chunk_loop_good _ _ _ _ _ [] _ Hcs ltac:(constructor) Hspec)
      as Hgood.
    pose proof (chunk_loop_substrings _ _ _ _ _ [] _ ltac:(constructor) Hspec)
      as Hsub.
    rewrite Forall_forall in Hgood, Hsub.
    destruct (Hgood chunk Hin) as (_ & _ & ?). split; [done|by apply Hsub].
Qed.

Lemma document_chunks_skipped doc :
  has_text doc = false -> document_chunks doc = Returns [].
Proof. unfold has_text, document_chunks. by intros ->. Qed.

Lemma chunk_objects_no_url doc total i chunk rest :
  doc !! "url"%string = None ->
  chunk_objects doc total i (chunk :: rest) = Raises (KeyError "url").
Proof. intros H. cbn [chunk_objects]. unfold chunk_data at 1. by rewrite H. Qed.

Lemma clean_text_head (text : str) :
  match clean_text text with [] => True | c :: _ => is_space c = false end.
Proof. unfold clean_text. apply strip_head. Qed.

Lemma document_chunks_no_url doc :
  has_text doc = true -> doc !! "url"%string = None ->
  document_chunks doc = Raises (KeyError "url").
Proof.
  unfold has_text, document_chunks. intros -> Hurl.
  pose proof (chunk_text_default_nonempty _
                (clean_text_head (default [] (doc !! "text"%string)))) as Hne.
  destruct (chunk_text_default _) as [|chunk rest]; [done|].
  by apply chunk_objects_no_url.
Qed.

Lemma document_chunks_nonempty doc block :
  has_text doc = true -> document_chunks doc = Returns block -> block <> [].
Proof.
  unfold has_text, document_chunks. intros -> H.
  apply chunk_objects_length in H.
  pose proof (chunk_text_default_nonempty _
                (clean_text_head (default [] (doc !! "text"%string)))) as Hne.
  destruct block; [|done]. destruct (chunk_text_default _); done.
Qed.

Lemma document_chunks_with_url doc :
  is_Some (doc !! "url"%string) -> exists block, document_chunks doc = Returns block.
Proof.
  intros Hurl. unfold document_chunks. destruct (truthy _); [|by eexists].
  by apply chunk_objects_returns.
Qed.

(** Only one exception can leave [document_chunks]. *)
Lemma document_chunks_raises doc e :
  document_chunks doc = Raises e -> e = KeyError "url".
Proof.
  destruct (doc !! "url"%string) as [url|] eqn:Hurl.
  - destruct (document_chunks_with_url doc) as [block ->]; [by eexists|done].
  - destruct (has_text doc) eqn:Ht.
    + rewrite document_chunks_no_url by done. by intros [= <-].
    + by rewrite document_chunks_skipped.
Qed.
End process_documents_more.

(** [process_documents] returns exactly when every document with a
    non-empty text has a url; when one has none, [KeyError('url')] is
    raised, whatever its place in the list. *)
Theorem process_documents_outcome (documents : list document) :
  (Forall (fun doc => has_text doc = true -> is_Some (doc !! "url"%string)) documents ->
   exists out, process_documents documents = Returns out)
  /\ (Exists (fun doc => has_text doc = true /\ doc !! "url"%string = None) documents ->
      process_documents documents = Raises (KeyError "url")).
Proof.
  split.
  - induction 1 as [|doc docs Hdoc _ [out IH]]; simpl; [by eexists|].
    assert (exists ds, document_chunks doc = Returns ds) as [ds ->].
    { destruct (has_text doc) eqn:Ht.
      - by apply document_chunks_with_url, Hdoc.
      - exists []. by apply document_chunks_skipped. }
    simpl. rewrite IH. by eexists.
  - induction documents as [|doc docs IH]; intros Hex; [by apply Exists_nil in Hex|].
    simpl. destruct (document_chunks doc) as [ds|e] eqn:Ed.
    + simpl. apply Exists_cons in Hex as [[Ht Hurl]|Hex].
      * rewrite document_chunks_no_url in Ed by done. done.
      * by rewrite (IH Hex).
    + simpl. by rewrite (document_chunks_raises doc e Ed).
Qed.

(** The documents whose text is missing or empty are skipped: they change
    nothing in the result, with or without a url. *)
Theorem process_documents_skips (documents : list document) :
  process_documents documents = process_documents (List.filter has_text documents).
Proof.
  induction documents as [|doc docs IH]; [done|].
  cbn [List.filter process_documents]. destruct (has_text doc) eqn:Ht.
  - cbn [process_documents]. by rewrite IH.
  - rewrite (document_chunks_skipped doc Ht), <- IH. simpl.
    by destruct (process_documents docs).
Qed.

(** Every document with a non-empty text gives at least one chunk, so the
    result has at least as many chunks as there are such documents and no
    chunk has [total_chunks = 0]. *)
Theorem process_documents_at_least_one (documents : list document) (out : list dict) :
  process_documents documents = Returns out ->
  (length (List.filter has_text documents) <= length out)%nat
  /\ Forall (fun c => exists n, c !! "total_chunks"%string = Some (VInt n) /\ 1 <= n) out.
Proof.
  revert out. induction documents as [|doc docs IH]; intros out; simpl.
  - intros [= <-]. split; [done|constructor].
  - destruct (document_chunks doc) as [ds|] eqn:Ed; [|done]. simpl.
    destruct (process_documents docs) as [out'|]; [|done]. simpl.
    intros [= <-]. destruct (IH out' eq_refl) as [Hlen Hall].
    rewrite length_app. split.
    + destruct (has_text doc) eqn:Ht; simpl; [|lia].
      pose proof (document_chunks_nonempty doc ds Ht Ed).
      destruct ds; simpl in *; [done|lia].
    + apply Forall_app. split; [|done].
      apply Forall_forall. intros c Hc.
      apply list_elem_of_lookup in Hc as [i Hi].
      destruct (document_chunks_block doc ds Ed i c Hi) as (_ & Htot & _).
      exists (Z.of_nat (length ds)). split; [done|].
      apply lookup_lt_Some in Hi. lia.
Qed.

Lemma process_documents_at_least_one_witness :
  exists out,
    process_documents sample_documents = Returns out
    /\ (length (List.filter has_text sample_documents) <= length out)%nat
    /\ Forall (fun c => exists n, c !! "total_chunks"%string = Some (VInt n) /\ 1 <= n) out.
Proof.
  destruct (process_documents sample_documents) as [out|] eqn:E.
  - exists out. split; [reflexivity|].
    apply (process_documents_at_least_one sample_documents out E).
  - apply (f_equal (fun r => match r with Returns _ => true | Raises _ => false end)) in E.
    vm_compute in E. discriminate.
Defined.

(** The text of every chunk has at most 1000 characters and is a
    contiguous part of the cleaned text of one of the documents. *)
Theorem process_documents_texts (documents : list document) (out : list dict) :
  process_documents documents = Returns out ->
  Forall (fun c => exists t doc,
            c !! "text"%string = Some (VStr t)
            /\ len t <= 1000
            /\ doc ∈ documents
            /\ substring_of t (clean_text (default [] (doc !! "text"%string))))
         out.
Proof.
  revert out. induction documents as [|doc docs IH]; intros out; simpl.
  - intros [= <-]. constructor.
  - destruct (document_chunks doc) as [ds|] eqn:Ed; [|done]. simpl.
    destruct (process_documents docs) as [out'|]; [|done]. simpl.
    intros [= <-]. apply Forall_app. split.
    + apply Forall_forall. intros c Hc.
      apply list_elem_of_lookup in Hc as [i Hi].
      unfold document_chunks in Ed.
      destruct (truthy _); [|injection Ed as <-; done].
      destruct (chunk_objects_lookup _ _ _ _ _ _ _ Ed Hi) as (chunk & Hch & Hd).
      apply chunk_data_fields in Hd as (_ & _ & Htext & _).
      apply list_elem_of_lookup_2, chunk_text_default_bounded in Hch as [Hlen Hsub].
      exists chunk, doc. split; [done|]. split; [done|]. split; [set_solver|done].
    + eapply Forall_impl; [by apply IH|].
      intros c (t & doc' & ? & ? & ? & ?). exists t, doc'. set_solver.
Qed.

Lemma process_documents_texts_witness :
  exists out,
    process_documents sample_documents = Returns out
    /\ Forall (fun c => exists t doc,
                 c !! "text"%string = Some (VStr t)
                 /\ len t <= 1000
                 /\ doc ∈ sample_documents
                 /\ substring_of t (clean_text (default [] (doc !! "text"%string))))
              out.
Proof.
  destruct (process_documents sample_documents) as [out|] eqn:E.
  - exists out. split; [reflexivity|].
    apply (process_documents_texts sample_documents out E).
  - apply (f_equal (fun r => match r with Returns _ => true | Raises _ => false end)) in E.
    vm_compute in E. discriminate.
Defined.


(* ===================================================================== *)
(** ** Chunk ids *)
(* ===================================================================== *)

Section chunk_ids.
Implicit Types (doc : document) (docs : list document) (block out : list dict)
  (u t : str).

(** The decimal digits hold no hash sign. *)
Lemma pretty_N_go_no_hash (x : N) (s : string) :
  "#"%char ∉ list_ascii_of_string s ->
  "#"%char ∉ list_ascii_of_string (pretty_N_go x s).
Proof.
  revert s. induction (N.lt_wf_0 x) as [x _ IH]; intros s Hs.
  assert (x = 0 \/ 0 < x)%N as [->|Hx] by lia.
  - by rewrite pretty_N_go_0.
  - rewrite pretty_N_go_step by done. apply IH; [by apply N.div_lt|].
    simpl. apply not_elem_of_cons. split; [|done].
    unfold pretty_N_char. by repeat case_match.
Qed.

Lemma repr_int_no_hash (i : nat) : "#"%char ∉ repr_int (Z.of_nat i).
Proof.
  unfold repr_int, lit, pretty, pretty_Z.
  destruct (Z.of_nat i) as [|p|p] eqn:E; [|
    |lia].
  - simpl. set_solver.
  - unfold pretty, pretty_positive, pretty, pretty_N.
    destruct (decide _); [done|]. apply pretty_N_go_no_hash. simpl. set_solver.
Qed.

Lemma repr_int_inj (i j : nat) :
  repr_int (Z.of_nat i) = repr_int (Z.of_nat j) -> i = j.
Proof.
  unfold repr_int, lit. intros H.
  apply (f_equal string_of_list_ascii) in H.
  rewrite !string_of_list_ascii_of_string in H.
  apply (inj pretty) in H. lia.
Qed.

(** Two texts cut at their last occurrence of a character. *)
Lemma split_at_last (x : ascii) (a a' t t' : str) :
  x ∉ t -> x ∉ t' -> a ++ x :: t = a' ++ x :: t' -> a = a' /\ t = t'.
Proof.
  intros Ht Ht' H.
  assert (forall (r r' b b' : str), x ∉ r -> x ∉ r' ->
            r ++ x :: b = r' ++ x :: b' -> r = r' /\ b = b') as Hfirst.
  { clear. induction r as [|c r IH]; intros [|c' r'] b b' Hr Hr' H; simpl in *.
    - by injection H.
    - injection H as -> _. set_solver.
    - injection H as -> _. set_solver.
    - injection H as -> H.
      apply not_elem_of_cons in Hr as [_ Hr], Hr' as [_ Hr'].
      destruct (IH _ _ _ Hr Hr' H) as [-> ->]. done. }
  apply (f_equal (@rev ascii)) in H.
  rewrite !rev_app_distr in H. simpl in H. rewrite <- !app_assoc in H. simpl in H.
  apply Hfirst in H as [H1 H2].
  - apply (f_equal (@rev ascii)) in H1, H2. by rewrite !rev_involutive in H1, H2.
  - intros Hin. apply Ht. apply list_elem_of_In. apply in_rev.
    by apply list_elem_of_In.
  - intros Hin. apply Ht'. apply list_elem_of_In. apply in_rev.
    by apply list_elem_of_In.
Qed.

(** The id tells the url and the index. *)
Lemma chunk_id_inj u u' (i i' : nat) :
  chunk_id u i = chunk_id u' i' -> u = u' /\ i = i'.
Proof.
  unfold chunk_id. change (lit "#chunk_") with ("#"%char :: lit "chunk_").
  rewrite <- !app_comm_cons. intros H.
  apply split_at_last in H as [-> H].
  - split; [done|]. apply app_inv_head in H. by apply repr_int_inj.
  - intros Hin. apply elem_of_app in Hin as [Hin|Hin].
    + vm_compute in Hin. set_solver.
    + by apply repr_int_no_hash in Hin.
  - intros Hin. apply elem_of_app in Hin as [Hin|Hin].
    + vm_compute in Hin. set_solver.
    + by apply repr_int_no_hash in Hin.
Qed.

Lemma block_ids doc block i c :
  document_chunks doc = Returns block -> block !! i = Some c ->
  has_text doc = true
  /\ exists url, doc !! "url"%string = Some url
                 /\ c !! "id"%string = Some (VStr (chunk_id url i)).
Proof.
  intros Hd Hi. split.
  - destruct (has_text doc) eqn:Ht; [done|].
    rewrite document_chunks_skipped in Hd by done. by injection Hd as <-.
  - destruct (document_chunks_block doc block Hd i c Hi) as (_ & _ & url & ? & ? & _).
    by exists url.
Qed.

Lemma process_documents_id_source docs out c :
  process_documents docs = Returns out -> c ∈ out ->
  exists doc url (i : nat),
    doc ∈ List.filter has_text docs /\ doc !! "url"%string = Some url
    /\ c !! "id"%string = Some (VStr (chunk_id url i)).
Proof.
  revert out. induction docs as [|doc docs IH]; intros out; simpl.
  - intros [= <-] Hin. by apply not_elem_of_nil in Hin.
  - destruct (document_chunks doc) as [ds|] eqn:Ed; [|done]. simpl.
    destruct (process_documents docs) as [out'|]; [|done]. simpl.
    intros [= <-] Hin. apply elem_of_app in Hin as [Hin|Hin].
    + apply list_elem_of_lookup in Hin as [i Hi].
      destruct (block_ids doc ds i c Ed Hi) as (Ht & url & Hurl & Hid).
      exists doc, url, i. rewrite Ht. split; [set_solver|done].
    + destruct (IH out' eq_refl Hin) as (doc' & url & i & Hd & ? & ?).
      exists doc', url, i. split; [|done].
      destruct (has_text doc); set_solver.
Qed.
End chunk_ids.

(** When the documents with a non-empty text have pairwise different
    urls, the chunks of the result have pairwise different ids. *)
Theorem process_documents_ids_distinct (documents : list document) (out : list dict) :
  NoDup (map (fun doc : document => doc !! "url"%string)
             (List.filter has_text documents)) ->
  process_documents documents = Returns out ->
  NoDup (map (fun c : dict => c !! "id"%string) out).
Proof.
  revert out. induction documents as [|doc docs IH]; intros out Hnd; simpl.
  - intros [= <-]. constructor.
  - destruct (document_chunks doc) as [ds|] eqn:Ed; [|done]. simpl.
    destruct (process_documents docs) as [out'|] eqn:Ep; [|done]. simpl.
    intros [= <-]. rewrite map_app. apply NoDup_app. split; [|split].
    + apply NoDup_alt. intros i j x Hi Hj.
      apply list_lookup_fmap_Some in Hi as (c & -> & Hc).
      apply list_lookup_fmap_Some in Hj as (c' & Heq & Hc').
      destruct (block_ids doc ds i c Ed Hc) as (_ & url & Hurl & Hid).
      destruct (block_ids doc ds j c' Ed Hc') as (_ & url' & Hurl' & Hid').
      rewrite Hid, Hid' in Heq. injection Heq as Heq.
      by apply chunk_id_inj in Heq as [_ ?].
    + intros x Hx Hx'.
      apply list_elem_of_fmap in Hx as (c & -> & Hc).
      apply list_elem_of_fmap in Hx' as (c' & Heq & Hc').
      apply list_elem_of_lookup in Hc as [i Hi].
      destruct (block_ids doc ds i c Ed Hi) as (Ht & url & Hurl & Hid).
      destruct (process_documents_id_source docs out' c' Ep Hc')
        as (doc' & url' & i' & Hd' & Hurl' & Hid').
      rewrite Hid, Hid' in Heq. injection Heq as Heq.
      apply chunk_id_inj in Heq as [-> _].
      simpl in Hnd. rewrite Ht in Hnd. simpl in Hnd.
      apply NoDup_cons in Hnd as [Hnotin _]. apply Hnotin.
      apply list_elem_of_fmap. exists doc'. by rewrite Hurl, Hurl'.
    + apply IH; [|done]. simpl in Hnd.
      destruct (has_text doc); [|done]. simpl in Hnd.
      by apply NoDup_cons in Hnd as [_ ?].
Qed.

Lemma process_documents_ids_distinct_witness :
  exists out,
    process_documents sample_documents = Returns out
    /\ NoDup (map (fun c : dict => c !! "id"%string) out).
Proof.
  destruct (process_documents sample_documents) as [out|] eqn:E.
  - exists out. split; [reflexivity|].
    apply (process_documents_ids_distinct sample_documents out); [|exact E].
    apply (bool_decide_unpack _). vm_compute. exact I.
  - apply (f_equal (fun r => match r with Returns _ => true | Raises _ => false end)) in E.
    vm_compute in E. discriminate.
Defined.


(* ===================================================================== *)
(** ** The embedder: missing texts, shared objects, batches *)
(* ===================================================================== *)

Section embedder_more.
Implicit Types (sigma : store) (chunks : list nat) (texts : list value)
  (embeddings : list vec) (svc : embed_service).

Lemma chunk_texts_raises sigma chunks e :
  chunk_texts sigma chunks = Raises e -> e = KeyError "text".
Proof.
  induction chunks as [|l rest IH]; simpl; [done|].
  destruct (field sigma l "text"); [|by intros [= <-]].
  destruct (chunk_texts sigma rest); simpl; [done|].
  intros [= <-]. by apply IH.
Qed.

Lemma chunk_texts_missing sigma chunks :
  Exists (fun l => field sigma l "text" = None) chunks ->
  chunk_texts sigma chunks = Raises (KeyError "text").
Proof.
  induction 1 as [l rest Hl|l rest _ IH]; simpl.
  - by rewrite Hl.
  - rewrite IH. by destruct (field sigma l "text").
Qed.

(** The object at a position after which it does not occur again ends
    with the vector of that position. *)
Lemma write_embeddings_last sigma chunks embeddings j l e :
  chunks !! j = Some l -> embeddings !! j = Some e ->
  (forall j', (j < j')%nat -> chunks !! j' <> Some l) ->
  is_Some (sigma !! l) ->
  field (foldl set_embedding sigma (zip chunks embeddings)) l "embedding"
  = Some (VVec e).
Proof.
  revert sigma embeddings j.
  induction chunks as [|l0 chunks IH]; intros sigma embeddings j Hl He Hlast Hs;
    [done|].
  destruct embeddings as [|e0 embeddings]; [done|]. simpl.
  destruct j as [|j]; simpl in *.
  - injection Hl as ->. injection He as ->.
    unfold field. rewrite write_embeddings_other.
    + unfold set_embedding. simpl. rewrite lookup_alter_eq.
      destruct Hs as [d ->]. simpl. by rewrite lookup_insert_eq.
    + intros Hin.
      apply list_elem_of_fmap in Hin as ([l' e'] & -> & Hin).
      apply elem_of_zip_l, list_elem_of_lookup in Hin as [j' Hj'].
      by apply (Hlast (S j')); [lia|].
  - apply (IH _ _ j); [done..| |].
    + intros j' Hj'. apply (Hlast (S j')). lia.
    + unfold set_embedding. by apply lookup_alter_is_Some.
Qed.

Lemma last_occurrence chunks l :
  l ∈ chunks ->
  exists j, chunks !! j = Some l
            /\ forall j', (j < j')%nat -> chunks !! j' <> Some l.
Proof.
  induction chunks as [|c rest IH]; intros Hin; [by apply not_elem_of_nil in Hin|].
  destruct (decide (l ∈ rest)) as [Hr|Hr].
  - destruct (IH Hr) as (j & Hj & Hlast). exists (S j). split; [done|].
    intros [|j'] Hlt; [lia|]. simpl. apply Hlast. lia.
  - apply elem_of_cons in Hin as [->|Hin]; [|done].
    exists O. split; [done|]. intros [|j'] Hlt; [lia|]. simpl.
    intros Hj'. apply Hr. by eapply list_elem_of_lookup_2.
Qed.

(** *** The batches that are sent *)

(** The store after the writes, at the last position of an object. *)
Lemma embedding_at_last svc sigma chunks texts j l :
  honours_contract svc ->
  chunk_texts sigma chunks = Returns texts ->
  chunks !! j = Some l ->
  (forall j', (j < j')%nat -> chunks !! j' <> Some l) ->
  exists e, vector_due svc texts j = Some e
    /\ field (foldl set_embedding sigma (zip chunks (batch_embeddings svc texts)))
             l "embedding" = Some (VVec e).
Proof.
  intros Hc Et Hl Hlast.
  destruct (chunk_texts_spec _ _ _ Et) as [Hlen Hall].
  assert (j < length texts)%nat as Hj
    by (rewrite Hlen; by eapply lookup_lt_Some).
  pose proof (batch_embeddings_lookup svc texts j Hc Hj) as Hdue.
  assert (is_Some (sigma !! l)) as Hs.
  { rewrite Forall_forall in Hall. apply Hall. by eapply list_elem_of_lookup_2. }
  assert (is_Some (batch_embeddings svc texts !! j)) as [e He].
  { apply lookup_lt_is_Some. by rewrite batch_embeddings_length. }
  exists e. split; [by rewrite <- Hdue|].
  by apply (write_embeddings_last sigma chunks _ j l e).
Qed.
End embedder_more.

(** [create_embeddings] returns exactly when every chunk has a text;
    when one has none, [KeyError('text')] is raised before anything is
    written, and the store is as it was. *)
Theorem create_embeddings_outcome (svc : embed_service) (sigma : store)
    (chunks : list nat) :
  (Forall (fun l => is_Some (field sigma l "text")) chunks ->
   (create_embeddings svc sigma chunks).1 = Returns chunks)
  /\ (Exists (fun l => field sigma l "text" = None) chunks ->
      create_embeddings svc sigma chunks = (Raises (KeyError "text"), sigma)).
Proof.
  split; [apply create_embeddings_returns|].
  intros H. unfold create_embeddings. by rewrite chunk_texts_missing.
Qed.

(** Shared chunk objects: when the service returns one vector per text,
    a chunk object ends with the vector that is due to the last position
    at which it occurs in the list. *)
Theorem create_embeddings_last_position (svc : embed_service) (sigma : store)
    (chunks : list nat) (texts : list value) (j l : nat) :
  honours_contract svc ->
  chunk_texts sigma chunks = Returns texts ->
  chunks !! j = Some l ->
  (forall j', (j < j')%nat -> chunks !! j' <> Some l) ->
  exists e, vector_due svc texts j = Some e
    /\ field (create_embeddings svc sigma chunks).2 l "embedding" = Some (VVec e).
Proof.
  intros Hc Et Hl Hlast. unfold create_embeddings. rewrite Et.
  by apply embedding_at_last.
Qed.

Lemma create_embeddings_last_position_witness :
  let sigma : store := {[ 7%nat := {[ "text"%string := VStr (lit "x") ]} ]} in
  let chunks := [7%nat; 7%nat] in
  exists e, vector_due constant_service [VStr (lit "x"); VStr (lit "x")] 1 = Some e
    /\ field (create_embeddings constant_service sigma chunks).2 7%nat "embedding"
       = Some (VVec e).
Proof.
  intros sigma chunks.
  apply (create_embeddings_last_position constant_service sigma chunks
           [VStr (lit "x"); VStr (lit "x")] 1 7).
  - exact constant_service_contract.
  - vm_compute. reflexivity.
  - reflexivity.
  - intros [|[|j']] Hlt; [lia|lia|]. simpl. discriminate.
Defined.

(** When the service returns one vector per text, every chunk object of
    the list carries an embedding afterwards, also when objects are
    shared; and when every call fails, every one of them carries the zero
    vector. *)
Theorem create_embeddings_all_embedded (svc : embed_service) (sigma : store)
    (chunks : list nat) (texts : list value) (l : nat) :
  honours_contract svc ->
  chunk_texts sigma chunks = Returns texts ->
  l ∈ chunks ->
  (exists e, field (create_embeddings svc sigma chunks).2 l "embedding" = Some (VVec e))
  /\ ((forall k batch, svc k batch = None) ->
      field (create_embeddings svc sigma chunks).2 l "embedding"
      = Some (VVec zero_vector)).
Proof.
  intros Hc Et Hin. destruct (last_occurrence chunks l Hin) as (j & Hj & Hlast).
  destruct (embedding_at_last svc sigma chunks texts j l Hc Et Hj Hlast)
    as (e & Hdue & Hf).
  unfold create_embeddings. rewrite Et. cbn [snd].
  split; [by exists e|]. intros Hfail.
  unfold vector_due in Hdue. rewrite Hfail in Hdue. by injection Hdue as <-.
Qed.

Lemma create_embeddings_all_embedded_witness :
  (exists e, field (create_embeddings failing_service sample_store [0%nat; 1%nat; 0%nat]).2
               0%nat "embedding" = Some (VVec e))
  /\ ((forall k batch, failing_service k batch = None) ->
      field (create_embeddings failing_service sample_store [0%nat; 1%nat; 0%nat]).2
        0%nat "embedding" = Some (VVec zero_vector)).
Proof.
  apply (create_embeddings_all_embedded failing_service sample_store
           [0%nat; 1%nat; 0%nat]
           [VStr (lit "first"); VStr (lit "second"); VStr (lit "first")] 0).
  - intros k batch vs. discriminate.
  - vm_compute. reflexivity.
  - apply (bool_decide_unpack _). vm_compute. exact I.
Defined.



(* ===================================================================== *)
(** ** The vector-index client and the pipeline: further properties *)
(* ===================================================================== *)

Section rag_more.
Implicit Types (w : world) (vs : vector_store) (doc : search_result)
  (docs : list search_result).

Lemma ensure_index_connected w vs h :
  index vs = Some h -> ensure_index w vs = (Returns tt, vs).
Proof. unfold ensure_index. by intros ->. Qed.

Lemma ensure_index_result w vs r vs' :
  ensure_index w vs = (Returns r, vs') -> is_Some (index vs').
Proof.
  unfold ensure_index. destruct (index vs) as [h|] eqn:Hh.
  - intros [= _ <-]. by rewrite Hh.
  - destruct r. apply connect_to_index_sets.
Qed.

Lemma search_result_connected w vs query top_k docs vs' :
  search w vs query top_k = (Returns docs, vs') -> is_Some (index vs').
Proof.
  unfold search. destruct (ensure_index w vs) as [[r|e] vs''] eqn:E; [|done].
  intros H. apply ensure_index_result in E.
  destruct (search_attempt w vs'' query _); by injection H as _ <-.
Qed.

Lemma get_index_stats_result_connected w vs r vs' :
  get_index_stats w vs = (Returns r, vs') -> is_Some (index vs').
Proof.
  unfold get_index_stats. destruct (ensure_index w vs) as [[u|e] vs''] eqn:E; [|done].
  intros H. apply ensure_index_result in E.
  destruct (with_index vs'' _); by injection H as _ <-.
Qed.

Lemma substring_of_app_l (s a b : str) : substring_of s a -> substring_of s (a ++ b).
Proof.
  intros (at_ & p & q & -> & Hp). exists at_, p, (q ++ b). split; [|done].
  by rewrite <- !app_assoc.
Qed.

Lemma substring_of_app_r (s a b : str) : substring_of s b -> substring_of s (a ++ b).
Proof.
  intros (at_ & p & q & -> & Hp). exists (length (a ++ p)), (a ++ p), q.
  split; [|done]. by rewrite <- !app_assoc.
Qed.

Lemma substring_of_refl (s : str) : substring_of s s.
Proof. exists O, [], []. by rewrite app_nil_r. Qed.

Lemma join_mentions (sep part : str) (parts : list str) :
  part ∈ parts -> substring_of part (join sep parts).
Proof.
  induction parts as [|p rest IH]; intros Hin; [by apply not_elem_of_nil in Hin|].
  destruct rest as [|p' rest'].
  - apply list_elem_of_singleton in Hin as ->. apply substring_of_refl.
  - change (join sep (p :: p' :: rest')) with (p ++ sep ++ join sep (p' :: rest')).
    apply elem_of_cons in Hin as [->|Hin].
    + apply substring_of_app_l, substring_of_refl.
    + by apply substring_of_app_r, substring_of_app_r, IH.
Qed.

Lemma context_part_mentions w i doc :
  substring_of (sr_title doc) (context_part w i doc)
  /\ substring_of (sr_url doc) (context_part w i doc)
  /\ substring_of (sr_text doc) (context_part w i doc).
Proof.
  unfold context_part. repeat split.
  - do 8 apply substring_of_app_r. apply substring_of_app_l, substring_of_refl.
  - do 11 apply substring_of_app_r. apply substring_of_app_l, substring_of_refl.
  - do 14 apply substring_of_app_r. apply substring_of_app_l, substring_of_refl.
Qed.

Lemma substring_of_trans (a b c : str) :
  substring_of a b -> substring_of b c -> substring_of a c.
Proof.
  intros (i & p & q & -> & _) (j & p' & q' & -> & _).
  exists (length (p' ++ p)), (p' ++ p), (q ++ q'). split; [|done].
  by rewrite <- !app_assoc.
Qed.
End rag_more.

(** Once connected, always connected: after a [search] that returned, the
    store holds a handle, and neither [search] nor [get_index_stats]
    raises afterwards or changes the store, whatever the collaborators do
    by then, the listing of the indexes included. *)
Theorem connection_is_kept (w : world) (vs vs' : vector_store) (query : str)
    (top_k : option Z) (docs : list search_result) :
  search w vs query top_k = (Returns docs, vs') ->
  forall (w' : world) (query' : str) (top_k' : option Z),
    (exists docs', search w' vs' query' top_k' = (Returns docs', vs'))
    /\ (exists stats, get_index_stats w' vs' = (Returns stats, vs')).
Proof.
  intros Hs w' query' top_k'. apply search_result_connected in Hs as [h Hh].
  split.
  - unfold search. rewrite (ensure_index_connected w' vs' h Hh).
    destruct (search_attempt w' vs' query' _); by eexists.
  - unfold get_index_stats. rewrite (ensure_index_connected w' vs' h Hh).
    destruct (with_index vs' _); by eexists.
Qed.

Lemma connection_is_kept_witness :
  exists vs' docs,
    search flaky_world fresh_store (lit "What is MCP?") None = (Returns docs, vs')
    /\ forall (w' : world) (query' : str) (top_k' : option Z),
         (exists docs', search w' vs' query' top_k' = (Returns docs', vs'))
         /\ (exists stats, get_index_stats w' vs' = (Returns stats, vs')).
Proof.
  eexists _, _. split; [vm_compute; reflexivity|].
  eapply (connection_is_kept flaky_world fresh_store _ (lit "What is MCP?") None).
  vm_compute. reflexivity.
Defined.

(** When the store can reach its index, [search] never raises. A failure
    within its [try] block (the embedding call, an empty embedding
    response, the index query) gives the empty list; otherwise the result
    holds one entry per match, in the order of the matches. *)
Theorem search_returns (w : world) (vs : vector_store) (query : str)
    (top_k : option Z) :
  reachable w vs ->
  exists (docs : list search_result) (vs' : vector_store) (h : handle),
    search w vs query top_k = (Returns docs, vs')
    /\ index vs' = Some h
    /\ (forall e, query_embedding w query = Raises e -> docs = [])
    /\ (query_embedding w query = Returns [] -> docs = [])
    /\ (forall v rest,
          query_embedding w query = Returns (v :: rest) ->
          match index_query w h v (default settings.TOP_K_RESULTS top_k) with
          | Returns matches => docs = map result_of_match matches
          | Raises _ => docs = []
          end).
Proof.
  intros Hr. destruct (search_reachable w vs query top_k Hr) as (docs & vs' & Hs & He & Hd).
  destruct (ensure_index_result _ _ _ _ He) as [h Hh].
  exists docs, vs', h. split; [done|]. split; [done|].
  unfold search_attempt, with_index in Hd. rewrite Hh in Hd.
  split; [|split].
  - intros e Hq. by rewrite Hq in Hd.
  - intros Hq. by rewrite Hq in Hd.
  - intros v rest Hq. rewrite Hq in Hd. simpl in Hd.
    by destruct (index_query w h v _).
Qed.

Lemma search_returns_witness :
  exists (docs : list search_result) (vs' : vector_store) (h : handle),
    search flaky_world fresh_store (lit "What is MCP?") None = (Returns docs, vs')
    /\ index vs' = Some h
    /\ (forall e, query_embedding flaky_world (lit "What is MCP?") = Raises e -> docs = [])
    /\ (query_embedding flaky_world (lit "What is MCP?") = Returns [] -> docs = [])
    /\ (forall v rest,
          query_embedding flaky_world (lit "What is MCP?") = Returns (v :: rest) ->
          match index_query flaky_world h v (default settings.TOP_K_RESULTS None) with
          | Returns matches => docs = map result_of_match matches
          | Raises _ => docs = []
          end).
Proof.
  apply (search_returns flaky_world fresh_store (lit "What is MCP?") None).
  right. vm_compute. reflexivity.
Defined.

(** The snippet of a source is the text itself when that has at most 200
    characters, and its first 200 characters followed by three dots
    otherwise: it never has more than 203 characters. *)
Theorem source_snippet (doc : search_result) :
  (len (sr_text doc) <= 200 -> s_snippet (source_of doc) = sr_text doc)
  /\ (200 < len (sr_text doc) ->
      s_snippet (source_of doc) = take 200 (sr_text doc) ++ lit "...")
  /\ len (s_snippet (source_of doc)) <= 203.
Proof.
  unfold source_of. simpl.
  assert (py_slice (sr_text doc) 0 200 = take 200 (sr_text doc)) as Hslice.
  { rewrite py_slice_plain by (pose proof (len_nonneg (sr_text doc)); lia).
    simpl. rewrite drop_0. unfold len.
    destruct (decide (length (sr_text doc) <= 200)%nat).
    - rewrite !take_ge; [done|lia..].
    - f_equal. lia. }
  rewrite Hslice.
  destruct (200 <? len (sr_text doc)) eqn:E.
  - split; [lia|]. split; [done|].
    unfold len. rewrite length_app, length_take.
    cbn [length]. lia.
  - split; [done|]. split; lia.
Qed.

(** When the retrieval fails, [ask] still answers: the generation is
    given the sentence that stands for an empty context, [context_used]
    is false and the list of sources is empty. *)
Theorem ask_without_context (w : world) (vs vs' : vector_store) (query : str)
    (include_sources : bool) (e : exn) :
  ensure_index w vs = (Returns tt, vs') ->
  search_attempt w vs' query settings.TOP_K_RESULTS = Raises e ->
  ask w vs query include_sources
  = (Returns {| r_query := query;
                r_answer := generate_answer w query (lit "No relevant context found.");
                r_context_used := false;
                r_sources := if include_sources then Some [] else None |},
     vs').
Proof.
  intros He Hs. unfold ask, retrieve_context, search. simpl default.
  by rewrite He, Hs.
Qed.

Lemma ask_without_context_witness :
  ask empty_world_connected.1 empty_world_connected.2 (lit "What is MCP?") true
  = (Returns {| r_query := lit "What is MCP?";
                r_answer := generate_answer empty_world_connected.1 (lit "What is MCP?")
                              (lit "No relevant context found.");
                r_context_used := false;
                r_sources := Some [] |},
     empty_world_connected.2).
Proof.
  apply (ask_without_context empty_world_connected.1 empty_world_connected.2
           empty_world_connected.2 (lit "What is MCP?") true IndexError).
  - reflexivity.
  - reflexivity.
Defined.

(** The context that is handed to the generation mentions every retrieved
    document: its title, its url and its whole text occur in it. *)
Theorem format_context_mentions (w : world) (docs : list search_result)
    (doc : search_result) :
  doc ∈ docs ->
  substring_of (sr_title doc) (format_context w docs)
  /\ substring_of (sr_url doc) (format_context w docs)
  /\ substring_of (sr_text doc) (format_context w docs).
Proof.
  intros Hin. unfold format_context.
  destruct docs as [|d0 docs']; [by apply not_elem_of_nil in Hin|].
  set (all := d0 :: docs') in *.
  apply list_elem_of_lookup in Hin as [i Hi].
  assert (context_part w (S i) doc ∈ imap (fun i => context_part w (S i)) all) as Hpart.
  { apply list_elem_of_lookup. exists i. by rewrite list_lookup_imap, Hi. }
  apply (join_mentions [newline]) in Hpart.
  destruct (context_part_mentions w (S i) doc) as (Ht & Hu & Hx).
  repeat split; eapply substring_of_trans; eauto.
Qed.

Lemma format_context_mentions_witness :
  let doc := result_of_match sample_match in
  substring_of (sr_title doc) (format_context flaky_world [doc])
  /\ substring_of (sr_url doc) (format_context flaky_world [doc])
  /\ substring_of (sr_text doc) (format_context flaky_world [doc]).
Proof.
  intros doc. apply (format_context_mentions flaky_world [doc] doc).
  apply list_elem_of_singleton. reflexivity.
Defined.


(* ===================================================================== *)
(** ** Upserting the chunks *)
(* ===================================================================== *)

Section upsert_facts.
Implicit Types (w : world) (vs : vector_store) (chunks : list dict)
  (vectors : list vector_entry).

(** Cutting a list into pieces of [s] and putting them together. *)
Lemma pieces_concat {A} (l : list A) (s m : nat) :
  concat (map (fun k => take s (drop (k * s) l)) (seq 0 m)) = take (m * s) l.
Proof.
  induction m as [|m IH]; [done|].
  rewrite seq_S, map_app, concat_app, IH. cbn [map concat Nat.add].
  rewrite app_nil_r, take_take_drop.
  replace (S m * s)%nat with (m * s + s)%nat by lia. done.
Qed.

Lemma pieces_cover (n s : nat) : (0 < s)%nat -> (n <= (n + s - 1) / s * s)%nat.
Proof.
  intros Hs. pose proof (Nat.div_mod_eq (n + s - 1) s) as Hdm.
  pose proof (Nat.mod_upper_bound (n + s - 1) s ltac:(lia)) as Hm. nia.
Qed.

Lemma pieces_nonempty (n s k : nat) :
  (0 < s)%nat -> (k < (n + s - 1) / s)%nat -> (k * s < n)%nat.
Proof.
  intros Hs Hk. pose proof (Nat.div_mod_eq (n + s - 1) s) as Hdm.
  pose proof (Nat.mod_upper_bound (n + s - 1) s ltac:(lia)) as Hm. nia.
Qed.

Lemma py_slice_whole (s : str) (stop : Z) : len s <= stop -> py_slice s 0 stop = s.
Proof.
  intros H. pose proof (len_nonneg s).
  rewrite py_slice_plain by lia. simpl. rewrite drop_0.
  apply take_ge. unfold len in *. lia.
Qed.

(** A chunk as [process_documents] makes it, with an embedding added,
    gives a vector whose metadata hold the whole text. *)
Lemma vector_of_chunk_data (doc : document) (i total : nat) (chunk : str)
    (c : dict) (e : vec) :
  chunk_data doc i chunk total = Returns c -> len chunk <= 1000 ->
  exists v,
    vector_of (<["embedding"%string := VVec e]> c) = Returns v
    /\ v_values v = VVec e
    /\ Some (v_id v) = c !! "id"%string
    /\ v_metadata v !! "text"%string = Some (VStr chunk)
    /\ dom (v_metadata v)
       = list_to_set ["text"; "url"; "title"; "chunk_index"; "total_chunks";
                      "word_count"]%string.
Proof.
  unfold chunk_data. destruct (doc !! "url"%string) as [url|]; [|done].
  intros [= <-] Hlen.
  match goal with
  | |- context [vector_of (<[_ := _]> ?m)] => set (c := m)
  end.
  assert (item (<["embedding"%string := VVec e]> c) "id"
          = Returns (VStr (url ++ lit "#chunk_" ++ repr_int (Z.of_nat i)))) as Hid
    by reflexivity.
  assert (item (<["embedding"%string := VVec e]> c) "embedding" = Returns (VVec e))
    as Hemb by reflexivity.
  assert (item (<["embedding"%string := VVec e]> c) "text" = Returns (VStr chunk))
    as Htext by reflexivity.
  assert (item (<["embedding"%string := VVec e]> c) "url" = Returns (VStr url))
    as Hurl by reflexivity.
  assert (item (<["embedding"%string := VVec e]> c) "title"
          = Returns (VStr (default (lit "Untitled") (doc !! "title"%string))))
    as Htitle by reflexivity.
  assert (item (<["embedding"%string := VVec e]> c) "chunk_index"
          = Returns (VInt (Z.of_nat i))) as Hci by reflexivity.
  assert (item (<["embedding"%string := VVec e]> c) "total_chunks"
          = Returns (VInt (Z.of_nat total))) as Htc by reflexivity.
  assert (item (<["embedding"%string := VVec e]> c) "word_count"
          = Returns (VInt (word_count chunk))) as Hwc by reflexivity.
  unfold vector_of. rewrite Hid, Hemb, Htext, Hurl, Htitle, Hci, Htc, Hwc.
  cbn [mbind outcome_bind mret outcome_ret slice_to].
  rewrite (py_slice_whole chunk 1000 Hlen).
  eexists. split; [reflexivity|]. cbn [v_values v_id v_metadata].
  split; [done|]. split; [reflexivity|]. split; [reflexivity|].
  apply leibniz_equiv. rewrite dom_list_to_map. done.
Qed.

Lemma process_documents_chunk_origin (docs : list document) (out : list dict) c :
  process_documents docs = Returns out -> c ∈ out ->
  exists doc (i total : nat) (chunk : str),
    chunk_data doc i chunk total = Returns c /\ len chunk <= 1000.
Proof.
  revert out. induction docs as [|doc docs IH]; intros out; simpl.
  - intros [= <-] Hin. by apply not_elem_of_nil in Hin.
  - destruct (document_chunks doc) as [ds|] eqn:Ed; [|done]. simpl.
    destruct (process_documents docs) as [out'|]; [|done]. simpl.
    intros [= <-] Hin. apply elem_of_app in Hin as [Hin|Hin]; [|by eapply IH].
    apply list_elem_of_lookup in Hin as [i Hi].
    unfold document_chunks in Ed.
    destruct (truthy _); [|injection Ed as <-; done].
    destruct (chunk_objects_lookup _ _ _ _ _ _ _ Ed Hi) as (chunk & Hch & Hd).
    apply list_elem_of_lookup_2, chunk_text_default_bounded in Hch as [Hlen _].
    eexists doc, (0 + i)%nat, _, chunk. split; [exact Hd|done].
Qed.
End upsert_facts.

(** Every batch is sent, whichever calls fail. When the store can reach
    its index, the vectors can be prepared and the batch size is
    positive, [upsert_documents] returns; the batches that it sent are,
    put together, all the vectors in the order of the chunks, none is
    empty and none is larger than the batch size. *)
Theorem upsert_documents_sends_all (w : world)
    (upsert : handle -> list vector_entry -> outcome unit) (vs : vector_store)
    (chunks : list dict) (batch_size : option Z) (vectors : list vector_entry) :
  reachable w vs ->
  vectors_of chunks = Returns vectors ->
  0 < default 100 batch_size ->
  exists calls vs',
    upsert_documents w upsert vs chunks batch_size = (Returns calls, vs')
    /\ concat (map fst calls) = vectors
    /\ Forall (fun call => 1 <= len_batch call <= default 100 batch_size) calls.
Proof.
  intros Hr Hv Hbs. destruct (ensure_index_reachable w vs Hr) as (vs' & He & _).
  unfold upsert_documents. rewrite He, Hv. cbn [mbind outcome_bind].
  unfold range_from_zero.
  destruct (default 100 batch_size =? 0) eqn:E0; [lia|].
  destruct (default 100 batch_size <? 0) eqn:E1; [lia|].
  set (s := Z.to_nat (default 100 batch_size)).
  assert (0 < s)%nat as Hs by (unfold s; lia).
  eexists _, vs'. split; [reflexivity|]. rewrite !map_map. split.
  - unfold upsert_batch. cbn [fst]. fold s.
    rewrite (pieces_concat vectors s). apply take_ge. by apply pieces_cover.
  - apply Forall_forall. intros call Hin.
    apply list_elem_of_fmap in Hin as (k & -> & Hk).
    apply elem_of_seq in Hk. unfold upsert_batch, len_batch. cbn [fst]. fold s.
    rewrite length_take, length_drop.
    pose proof (pieces_nonempty (length vectors) s k Hs ltac:(lia)).
    unfold s in *. lia.
Qed.

Lemma upsert_documents_sends_all_witness :
  exists calls vs',
    upsert_documents flaky_world (fun _ _ => Raises (RemoteError "timeout"))
      fresh_store [sample_embedded; sample_embedded; sample_embedded] (Some 2)
    = (Returns calls, vs')
    /\ length calls = 2%nat
    /\ exists vectors,
         vectors_of [sample_embedded; sample_embedded; sample_embedded] = Returns vectors
         /\ concat (map fst calls) = vectors
         /\ Forall (fun call => 1 <= len_batch call <= 2) calls.
Proof.
  destruct (vectors_of [sample_embedded; sample_embedded; sample_embedded])
    as [vectors|] eqn:Ev.
  2:{ apply (f_equal (fun r => match r with Returns _ => true | Raises _ => false end)) in Ev.
      vm_compute in Ev. discriminate. }
  destruct (upsert_documents_sends_all flaky_world
              (fun _ _ => Raises (RemoteError "timeout")) fresh_store
              [sample_embedded; sample_embedded; sample_embedded] (Some 2) vectors)
    as (calls & vs' & Hu & Hc & Hall).
  - right. vm_compute. reflexivity.
  - exact Ev.
  - reflexivity.
  - exists calls, vs'. split; [exact Hu|]. split.
    + apply (f_equal (fun r => match r.1 with Returns l => length l | Raises _ => O end)) in Hu.
      vm_compute in Hu. exact (eq_sym Hu).
    + exists vectors. by split.
Defined.

(** The edges of the batch size. With a batch size of zero the function
    raises [ValueError] once the vectors are prepared; with a negative
    batch size it returns without sending anything. *)
Theorem upsert_documents_batch_size_edges (w : world)
    (upsert : handle -> list vector_entry -> outcome unit) (vs : vector_store)
    (chunks : list dict) (batch_size : Z) (vectors : list vector_entry) :
  reachable w vs ->
  vectors_of chunks = Returns vectors ->
  (batch_size = 0 ->
   exists vs', upsert_documents w upsert vs chunks (Some batch_size)
               = (Raises (ValueError "range() arg 3 must not be zero"), vs'))
  /\ (batch_size < 0 ->
      exists vs', upsert_documents w upsert vs chunks (Some batch_size)
                  = (Returns [], vs')).
Proof.
  intros Hr Hv. destruct (ensure_index_reachable w vs Hr) as (vs' & He & _).
  unfold upsert_documents. change (default 100 (Some batch_size)) with batch_size.
  rewrite He, Hv. cbn [mbind outcome_bind].
  unfold range_from_zero. split.
  - intros ->. by exists vs'.
  - intros Hneg. destruct (batch_size =? 0) eqn:E0; [lia|].
    destruct (batch_size <? 0) eqn:E1; [|lia]. by exists vs'.
Qed.

Lemma upsert_documents_batch_size_edges_witness :
  (exists vs', upsert_documents flaky_world (fun _ _ => Returns tt) fresh_store
                 [sample_embedded] (Some 0)
               = (Raises (ValueError "range() arg 3 must not be zero"), vs'))
  /\ (exists vs', upsert_documents flaky_world (fun _ _ => Returns tt) fresh_store
                    [sample_embedded] (Some (-1))
                  = (Returns [], vs')).
Proof.
  destruct (vectors_of [sample_embedded]) as [vectors|] eqn:Ev.
  2:{ apply (f_equal (fun r => match r with Returns _ => true | Raises _ => false end)) in Ev.
      vm_compute in Ev. discriminate. }
  split.
  - apply (upsert_documents_batch_size_edges flaky_world (fun _ _ => Returns tt)
             fresh_store [sample_embedded] 0 vectors);
      [right; vm_compute; reflexivity | exact Ev | reflexivity].
  - apply (upsert_documents_batch_size_edges flaky_world (fun _ _ => Returns tt)
             fresh_store [sample_embedded] (-1) vectors);
      [right; vm_compute; reflexivity | exact Ev | reflexivity].
Defined.

(** A chunk with a missing entry stops the function before anything is
    sent: when preparing the vectors raises, [upsert_documents] raises
    the same exception, and a chunk without embedding that has an id
    makes the preparation raise [KeyError('embedding')] when the chunks
    before it are complete. *)
Theorem upsert_documents_missing_embedding (w : world)
    (upsert : handle -> list vector_entry -> outcome unit) (vs : vector_store)
    (before after : list dict) (chunk : dict) (batch_size : option Z)
    (vectors : list vector_entry) :
  reachable w vs ->
  vectors_of before = Returns vectors ->
  is_Some (chunk !! "id"%string) -> chunk !! "embedding"%string = None ->
  exists vs',
    upsert_documents w upsert vs (before ++ chunk :: after) batch_size
    = (Raises (KeyError "embedding"), vs').
Proof.
  intros Hr Hv [id Hid] Hemb.
  destruct (ensure_index_reachable w vs Hr) as (vs' & He & _).
  exists vs'. unfold upsert_documents. rewrite He.
  assert (vectors_of (before ++ chunk :: after) = Raises (KeyError "embedding")) as ->;
    [|done].
  clear He. revert vectors Hv. induction before as [|c rest IH]; intros vectors Hv.
  - cbn [app vectors_of]. unfold vector_of, item. by rewrite Hid, Hemb.
  - cbn [app vectors_of] in *. destruct (vector_of c) as [v|]; [|done].
    cbn [mbind outcome_bind] in *.
    destruct (vectors_of rest) as [vrest|]; [|done].
    by rewrite (IH vrest eq_refl).
Qed.

Lemma upsert_documents_missing_embedding_witness :
  exists vs',
    upsert_documents flaky_world (fun _ _ => Returns tt) fresh_store
      ([sample_embedded] ++ sample_chunk_with_id :: []) None
    = (Raises (KeyError "embedding"), vs').
Proof.
  destruct (vectors_of [sample_embedded]) as [vectors|] eqn:Ev.
  2:{ apply (f_equal (fun r => match r with Returns _ => true | Raises _ => false end)) in Ev.
      vm_compute in Ev. discriminate. }
  apply (upsert_documents_missing_embedding flaky_world (fun _ _ => Returns tt)
           fresh_store [sample_embedded] [] sample_chunk_with_id None vectors).
  - right. vm_compute. reflexivity.
  - exact Ev.
  - vm_compute. by eexists.
  - reflexivity.
Defined.

(** The ingestion path: a chunk made by [process_documents], once it has
    an embedding, always gives a vector. The vector carries the id and
    the embedding of the chunk, its metadata hold the whole text of the
    chunk (which never exceeds the 1000 characters that are kept) and
    neither the timestamp nor the embedding. *)
Theorem ingested_chunk_gives_vector (documents : list document) (out : list dict)
    (c : dict) (e : vec) :
  process_documents documents = Returns out -> c ∈ out ->
  exists v,
    vector_of (<["embedding"%string := VVec e]> c) = Returns v
    /\ v_values v = VVec e
    /\ Some (v_id v) = c !! "id"%string
    /\ v_metadata v !! "text"%string = c !! "text"%string
    /\ v_metadata v !! "timestamp"%string = None
    /\ v_metadata v !! "embedding"%string = None.
Proof.
  intros Hp Hin.
  destruct (process_documents_chunk_origin documents out c Hp Hin)
    as (doc & i & total & chunk & Hd & Hlen).
  destruct (vector_of_chunk_data doc i total chunk c e Hd Hlen)
    as (v & Hv & Hval & Hid & Htext & Hdom).
  exists v. split; [done|]. split; [done|]. split; [done|].
  apply chunk_data_fields in Hd as (_ & _ & Hct & _).
  split; [by rewrite Hct|].
  split; apply not_elem_of_dom; rewrite Hdom; set_solver.
Qed.

Lemma ingested_chunk_gives_vector_witness :
  exists out c,
    process_documents sample_documents = Returns out /\ out !! 0%nat = Some c
    /\ exists v,
         vector_of (<["embedding"%string := VVec zero_vector]> c) = Returns v
         /\ v_values v = VVec zero_vector
         /\ Some (v_id v) = c !! "id"%string
         /\ v_metadata v !! "text"%string = c !! "text"%string
         /\ v_metadata v !! "timestamp"%string = None
         /\ v_metadata v !! "embedding"%string = None.
Proof.
  destruct (process_documents sample_documents) as [out|] eqn:E.
  2:{ apply (f_equal (fun r => match r with Returns _ => true | Raises _ => false end)) in E.
      vm_compute in E. discriminate. }
  destruct out as [|c out'].
  { apply (f_equal (fun r => match r with Returns l => length l | Raises _ => O end)) in E.
    vm_compute in E. discriminate. }
  exists (c :: out'), c. split; [reflexivity|]. split; [reflexivity|].
  apply (ingested_chunk_gives_vector sample_documents (c :: out') c zero_vector E).
  apply list_elem_of_here.
Defined.


(* ===================================================================== *)
(** ** Similar questions *)
(* ===================================================================== *)

Section question_facts.
Implicit Types (s sentence text : str).

Lemma split_on_no_sep (sep : ascii) s :
  Forall (fun piece => sep ∉ piece) (split_on sep s).
Proof.
  induction s as [|c r IH]; simpl.
  - apply Forall_singleton. apply not_elem_of_nil.
  - destruct (Ascii.eqb c sep) eqn:E.
    + constructor; [apply not_elem_of_nil|done].
    + apply Ascii.eqb_neq in E.
      destruct (split_on sep r) as [|h t].
      * apply Forall_singleton. set_solver.
      * apply Forall_cons in IH as [Hh Ht]. constructor; [set_solver|done].
Qed.

Lemma lstrip_fixed s :
  match s with [] => True | c :: _ => is_space c = false end -> lstrip s = s.
Proof. destruct s as [|c r]; simpl; [done|]. by intros ->. Qed.

Lemma strip_idempotent s : strip (strip s) = strip s.
Proof.
  pose proof (strip_head s) as Hh. pose proof (strip_last s) as Hl.
  unfold strip at 1. rewrite (lstrip_fixed _ Hh).
  unfold rstrip. rewrite (lstrip_fixed _ Hl). apply rev_involutive.
Qed.

Lemma strip_no_char (c : ascii) s : c ∉ s -> c ∉ strip s.
Proof.
  intros Hs Hin. apply Hs.
  destruct (strip_decompose s) as (w1 & w2 & Heq & _). rewrite Heq. set_solver.
Qed.

Lemma questions_in_shaped text : Forall question_shaped (questions_in text).
Proof.
  unfold questions_in. apply Forall_map, Forall_forall. intros sentence Hin.
  apply list_elem_of_In, filter_In in Hin as [Hin Hq].
  apply in_map_iff in Hin as (piece & <- & Hpiece).
  unfold looks_like_question in Hq.
  apply andb_prop in Hq as [Hq Hlt]. apply andb_prop in Hq as [Hw Hgt].
  exists (strip piece). split; [done|]. split; [lia|]. split; [|split].
  - apply strip_no_char.
    pose proof (split_on_no_sep "."%char text) as Hall.
    rewrite Forall_forall in Hall. apply Hall. by apply list_elem_of_In.
  - apply strip_idempotent.
  - apply existsb_exists in Hw as (word & Hword & Hstart).
    apply Exists_exists. exists word. split; [by apply list_elem_of_In|done].
Qed.

Lemma question_candidates_shaped threshold (docs : list search_result) :
  Forall question_shaped (question_candidates threshold docs).
Proof.
  unfold question_candidates. apply Forall_concat, Forall_map, Forall_forall.
  intros doc _. destruct (PrimFloat.ltb _ _); [apply questions_in_shaped|constructor].
Qed.
Lemma question_candidates_below threshold (docs : list search_result) :
  Forall (fun doc => PrimFloat.ltb threshold (sr_score doc) = false) docs ->
  question_candidates threshold docs = [].
Proof.
  unfold question_candidates. induction 1 as [|doc docs Hd _ IH]; [done|].
  cbn [map concat]. rewrite Hd. exact IH.
Qed.
End question_facts.

(** When the store can reach its index, [get_similar_questions] returns
    at most five questions, no two of them equal, and each of them a
    sentence of more than 10 and fewer than 100 characters that starts
    with a question word, followed by a question mark: in whatever order
    the set of the candidates is iterated. *)
Theorem get_similar_questions_shape (w : world) (set_order : list str -> list str)
    (vs : vector_store) (query : str) (threshold : PrimFloat.float) :
  is_set_order set_order ->
  reachable w vs ->
  exists questions vs',
    get_similar_questions w set_order vs query threshold = (Returns questions, vs')
    /\ (length questions <= 5)%nat
    /\ NoDup questions
    /\ Forall question_shaped questions.
Proof.
  intros Hso Hr.
  destruct (search_reachable w vs query (Some 10) Hr) as (docs & vs' & Hs & _).
  unfold get_similar_questions, retrieve_context. simpl default. rewrite Hs.
  eexists _, vs'. split; [reflexivity|].
  destruct (Hso (question_candidates threshold docs)) as [Hnd Hel].
  split; [rewrite length_take; lia|]. split.
  - eapply sublist_NoDup; [exact Hnd|apply sublist_take].
  - apply Forall_take. apply Forall_forall. intros q Hq.
    apply Hel in Hq. pose proof (question_candidates_shaped threshold docs) as Hall.
    rewrite Forall_forall in Hall. by apply Hall.
Qed.

Lemma remove_dups_is_set_order : is_set_order remove_dups.
Proof.
  intros xs. split; [apply NoDup_remove_dups|]. intros x. apply elem_of_remove_dups.
Qed.

Lemma get_similar_questions_shape_witness :
  exists questions vs',
    get_similar_questions question_world remove_dups fresh_store
      (lit "How?") 0.8%float = (Returns questions, vs')
    /\ (length questions <= 5)%nat
    /\ NoDup questions
    /\ Forall question_shaped questions.
Proof.
  apply (get_similar_questions_shape question_world remove_dups fresh_store
           (lit "How?") 0.8%float).
  - exact remove_dups_is_set_order.
  - right. vm_compute. reflexivity.
Defined.

(** A document whose score is not above the threshold gives no question,
    and neither does a text without a sentence that starts with a
    question word: with only such documents the result is empty. *)
Theorem get_similar_questions_threshold (w : world) (set_order : list str -> list str)
    (vs vs' : vector_store) (query : str) (threshold : PrimFloat.float)
    (docs : list search_result) :
  is_set_order set_order ->
  search w vs query (Some 10) = (Returns docs, vs') ->
  Forall (fun doc => PrimFloat.ltb threshold (sr_score doc) = false) docs ->
  get_similar_questions w set_order vs query threshold = (Returns [], vs').
Proof.
  intros Hso Hs Hall. unfold get_similar_questions, retrieve_context.
  simpl default. rewrite Hs.
  rewrite (question_candidates_below threshold docs Hall).
  destruct (Hso []) as [_ Hel].
  destruct (set_order []) as [|x l]; [done|].
  exfalso. apply (not_elem_of_nil x), Hel. apply list_elem_of_here.
Qed.

Lemma get_similar_questions_threshold_witness :
  get_similar_questions question_world remove_dups question_store
    (lit "How?") 2%float = (Returns [], question_store).
Proof.
  apply (get_similar_questions_threshold question_world remove_dups
           question_store question_store (lit "How?") 2%float
           [result_of_match question_match]).
  - exact remove_dups_is_set_order.
  - reflexivity.
  - constructor; [reflexivity|constructor].
Defined.


(* ===================================================================== *)
(** ** The HTTP handlers *)
(* ===================================================================== *)

Section handler_facts.
Implicit Types (w : world) (vs : vector_store).

(** [get_index_stats] raises exactly when the store holds no handle and
    the connection fails. *)
Lemma get_index_stats_raises_iff w vs :
  (exists e vs', get_index_stats w vs = (Raises e, vs'))
  <-> index vs = None /\ exists e, (connect_to_index w vs).1 = Raises e.
Proof.
  split.
  - intros (e & vs' & H). unfold get_index_stats in H.
    destruct (ensure_index w vs) as [[u|e'] vs''] eqn:Ee.
    + by destruct (with_index vs'' _).
    + unfold ensure_index in Ee. destruct (index vs) as [h|]; [done|].
      split; [done|]. exists e'. by rewrite Ee.
  - intros (Hh & e & Hc). exists e, vs. by apply get_index_stats_failure.
Qed.
End handler_facts.

(** [ask_question] never answers with a status other than 500: whatever
    is raised within its [try] block is raised again as an HTTP exception
    with status 500, and this includes the exception with status 503 that
    the block raises itself when the pipeline is not initialised. *)
Theorem ask_question_status (w : world) (describe : raised -> str)
    (elapsed : PrimFloat.float) (rag_pipeline : option vector_store)
    (request : question_request) :
  (forall h, (ask_question w describe elapsed rag_pipeline request).1 = inr h ->
             status_of h = 500)
  /\ (rag_pipeline = None ->
      ask_question w describe elapsed rag_pipeline request
      = (inr (HTTPException 500
                (lit "Error processing question: "
                 ++ describe (HttpExc (HTTPException 503
                                         (lit "RAG pipeline not initialized"))))),
         None)).
Proof.
  split.
  - intros h. unfold ask_question.
    destruct (ask_question_attempt w elapsed rag_pipeline request) as [[r|e] p];
      simpl; [done|]. by intros [= <-].
  - by intros ->.
Qed.

(** With an initialised pipeline whose store can reach its index,
    [ask_question] answers: the response repeats the question and carries
    the answer of the pipeline, and it has sources exactly when they were
    asked for and the retrieval found a document; the [top_k] of the
    request changes nothing. *)
Theorem ask_question_answers (w : world) (describe : raised -> str)
    (elapsed : PrimFloat.float) (vs : vector_store) (request : question_request) :
  reachable w vs ->
  exists response vs' r,
    ask_question w describe elapsed (Some vs) request = (inl response, Some vs')
    /\ ask w vs (rq_question request) (rq_include_sources request) = (Returns r, vs')
    /\ qr_query response = rq_question request
    /\ qr_answer response = r_answer r
    /\ qr_context_used response = r_context_used r
    /\ (is_Some (qr_sources response)
        <-> rq_include_sources request = true /\ qr_context_used response = true)
    /\ forall top_k,
         ask_question w describe elapsed (Some vs)
           {| rq_question := rq_question request;
              rq_include_sources := rq_include_sources request;
              rq_top_k := top_k |}
         = (inl response, Some vs').
Proof.
  intros Hr.
  destruct (search_reachable w vs (rq_question request)
              (Some settings.TOP_K_RESULTS) Hr) as (docs & vs' & Hs & _).
  set (r := {| r_query := rq_question request;
               r_answer := generate_answer w (rq_question request)
                             (format_context w docs);
               r_context_used := bool_decide (0 < length docs)%nat;
               r_sources := if rq_include_sources request
                            then Some (map source_of docs) else None |}).
  assert (ask w vs (rq_question request) (rq_include_sources request)
          = (Returns r, vs')) as Ha.
  { unfold ask, retrieve_context. simpl default. by rewrite Hs. }
  assert (r_context_used r = bool_decide (docs <> [])) as Hc.
  { apply bool_decide_ext. destruct docs; simpl; split; intros; (lia || done). }
  assert (r_sources r = if rq_include_sources request
                        then Some (map source_of docs) else None) as Hsrc by done.
  assert (r_query r = rq_question request) as Hq by done.
  clearbody r.
  unfold ask_question, ask_question_attempt. rewrite Ha.
  eexists _, vs', r. split; [reflexivity|]. split; [done|]. cbn.
  split; [exact Hq|]. split; [done|]. split; [done|].
  split; [|intros top_k; by rewrite Ha].
  rewrite Hc, Hsrc. destruct (rq_include_sources request).
  - destruct docs as [|d docs'].
    + split; [by intros [? ?]|]. intros [_ H].
      apply bool_decide_eq_true_1 in H. by destruct H.
    + split; [|by eexists]. intros _. split; [done|].
      by apply bool_decide_eq_true_2.
  - split; [by intros [? ?]|by intros [? _]].
Qed.

Lemma ask_question_answers_witness :
  let request := {| rq_question := lit "What is MCP?"; rq_include_sources := true;
                    rq_top_k := Some 3 |} in
  exists response vs' r,
    ask_question flaky_world (fun _ => lit "error") 0%float (Some fresh_store) request
    = (inl response, Some vs')
    /\ ask flaky_world fresh_store (rq_question request) (rq_include_sources request)
       = (Returns r, vs')
    /\ qr_query response = rq_question request
    /\ qr_answer response = r_answer r
    /\ qr_context_used response = r_context_used r
    /\ (is_Some (qr_sources response)
        <-> rq_include_sources request = true /\ qr_context_used response = true)
    /\ forall top_k,
         ask_question flaky_world (fun _ => lit "error") 0%float (Some fresh_store)
           {| rq_question := rq_question request;
              rq_include_sources := rq_include_sources request;
              rq_top_k := top_k |}
         = (inl response, Some vs').
Proof.
  intros request.
  apply (ask_question_answers flaky_world (fun _ => lit "error") 0%float
           fresh_store request).
  right. vm_compute. reflexivity.
Defined.

(** [health_check] always reports the status [healthy]. The entry for the
    vector store is [error] exactly when there is a store, it holds no
    handle and the connection fails; in every other case it is [ok], also
    when the call for the statistics itself fails. *)
Theorem health_check_report (w : world) (openai_api_key pinecone_api_key : option str)
    (now : str) (global_store : option vector_store) :
  let response := (health_check w openai_api_key pinecone_api_key now global_store).1 in
  h_status response = lit "healthy"
  /\ (h_services response !! "vector_store"%string = Some (lit "error")
      \/ h_services response !! "vector_store"%string = Some (lit "ok"))
  /\ (h_services response !! "vector_store"%string = Some (lit "error")
      <-> exists vs e, global_store = Some vs /\ index vs = None
                       /\ (connect_to_index w vs).1 = Raises e).
Proof.
  unfold health_check. destruct global_store as [vs|].
  - destruct (get_index_stats w vs) as [[r|e] vs'] eqn:Eg; cbn.
    + split; [done|]. split; [by right|]. split; [done|].
      intros (vs0 & e & [= <-] & Hh & Hc).
      by rewrite (get_index_stats_failure w vs e Hh Hc) in Eg.
    + split; [done|]. split; [by left|]. split; [|done]. intros _.
      destruct (proj1 (get_index_stats_raises_iff w vs)) as (Hh & e' & Hc);
        [by eexists _, _|].
      by exists vs, e'.
  - cbn. split; [done|]. split; [by right|]. split; [done|].
    by intros (vs0 & e & [=] & _).
Qed.
